(** * Talent Match dashboard: ranking, aggregation and comparison pipeline

    Shallow embedding of [streamlit_app.py].  A pandas DataFrame is a list of
    rows in index order; a Series is a list of values.  Match rates are the
    numbers the scoring procedure returns (0-100, never null); they are
    embedded as canonical rationals [Qc], so that equality of rates is
    Leibniz equality.  A missing value (NaN) only arises inside the pipeline
    (left joins, [Series.map]) and is [None].

    A float64 is a rational and floats compare as rationals do, so every
    comparison of the program is exact here.  Its arithmetic rounds: the
    definitions below compute with the exact operation, and the ones with
    suffix [_with] take the operation of the number format as an argument.
    In the same way [kind='quicksort'] names a kernel that numpy picks at
    run time; [Numpy.argsort] is the portable one ([npysort/quicksort.cpp]),
    and the definitions with suffix [_kind] take the kernel as an argument. *)

From Stdlib Require Import QArith Qcanon Ascii Sorted.
From stdpp Require Import base option list strings numbers gmap sorting.

Local Open Scope Qc_scope.

(** ** numpy: the argsort kernel behind [kind='quicksort'] *)

Module Numpy.

(** [npysort/quicksort.cpp], [aquicksort_]: an introsort on an array of
    positions [a] (the C array [tosort]) ordered by the keys [v].  Pointers
    into [tosort] are positions.  numpy never leaves the array; an exchange
    with a position outside of it is a no-op here.

    This is the portable kernel.  On processors with vector instructions
    numpy dispatches float keys to another kernel, which returns the same
    order of distinct keys and may return equal keys in another order: the
    order of ties that this kernel computes is not a property of the app. *)

Definition SMALL_QUICKSORT : nat := 16.

Definition key (v : list Qc) (i : nat) : Qc := default 0 (v !! i).
Definition deref (a : list nat) (p : nat) : nat := default 0%nat (a !! p).
Definition less (x y : Qc) : bool := bool_decide (x < y).

Definition INTP_SWAP (a : list nat) (p q : nat) : list nat :=
  match a !! p, a !! q with
  | Some x, Some y => <[q := x]> (<[p := y]> a)
  | _, _ => a
  end.

(** [npy_get_msb] *)
Definition npy_get_msb (num : nat) : nat := Nat.log2 num.

(** median of three, on the positions [pl], [pm], [pr] *)
Definition median3 (v : list Qc) (a : list nat) (pl pm pr : nat) : list nat :=
  let a := if less (key v (deref a pm)) (key v (deref a pl)) then INTP_SWAP a pm pl else a in
  let a := if less (key v (deref a pr)) (key v (deref a pm)) then INTP_SWAP a pr pm else a in
  if less (key v (deref a pm)) (key v (deref a pl)) then INTP_SWAP a pm pl else a.

(** [do { ++pi; } while (less(v[*pi], vp))], entered at the incremented [pi] *)
Fixpoint scan_up (v : list Qc) (a : list nat) (vp : Qc) (pi fuel : nat) : nat :=
  match fuel with
  | O => pi
  | S fuel => if less (key v (deref a pi)) vp then scan_up v a vp (S pi) fuel else pi
  end.

(** [do { --pj; } while (less(vp, v[*pj]))], entered at the decremented [pj] *)
Fixpoint scan_down (v : list Qc) (a : list nat) (vp : Qc) (pj fuel : nat) : nat :=
  match fuel with
  | O => pj
  | S fuel => if less vp (key v (deref a pj)) then scan_down v a vp (pred pj) fuel else pj
  end.

(** the [for (;;)] loop of the partition; returns the array and [pi] *)
Fixpoint hoare (v : list Qc) (a : list nat) (vp : Qc) (pi pj fuel : nat) : list nat * nat :=
  match fuel with
  | O => (a, pi)
  | S fuel =>
      let pi := scan_up v a vp (S pi) (length a) in
      let pj := scan_down v a vp (pred pj) (length a) in
      if bool_decide (pj ≤ pi)%nat then (a, pi)
      else hoare v (INTP_SWAP a pi pj) vp pi pj fuel
  end.

Definition partition (v : list Qc) (a : list nat) (pl pr : nat) : list nat * nat :=
  let pm := (pl + (pr - pl) / 2)%nat in
  let a := median3 v a pl pm pr in
  let vp := key v (deref a pm) in
  let pj := (pr - 1)%nat in
  let a := INTP_SWAP a pm pj in
  let '(a, pi) := hoare v a vp pl pj (length a) in
  let pk := (pr - 1)%nat in
  (INTP_SWAP a pi pk, pi).

(** insertion sort of the positions [pl..pr]: the element at [pj] moves
    down while it is smaller than its left neighbour ([*pj-- = *pk--],
    then [*pj = vi]; written as exchanges of neighbours) *)
Fixpoint sink (v : list Qc) (a : list nat) (pl pj fuel : nat) : list nat :=
  match fuel with
  | O => a
  | S fuel =>
      if bool_decide (pl < pj)%nat && less (key v (deref a pj)) (key v (deref a (pj - 1)))
      then sink v (INTP_SWAP a pj (pj - 1)) pl (pj - 1) fuel
      else a
  end.

Fixpoint insertion (v : list Qc) (a : list nat) (pl pi count : nat) : list nat :=
  match count with
  | O => a
  | S count => insertion v (sink v a pl pi (length a)) pl (S pi) count
  end.

Definition insertion_sort (v : list Qc) (a : list nat) (pl pr : nat) : list nat :=
  insertion v a pl (S pl) (pr - pl).

(** [npysort/heapsort.cpp], [aheapsort_] on the [n] positions from [base];
    the heap is indexed from 1 *)
Definition heap_pos (base k : nat) : nat := (base + k - 1)%nat.

Fixpoint sift (v : list Qc) (a : list nat) (base i j n fuel : nat) : list nat :=
  match fuel with
  | O => a
  | S fuel =>
      if bool_decide (j ≤ n)%nat then
        let j := if bool_decide (j < n)%nat
                    && less (key v (deref a (heap_pos base j)))
                            (key v (deref a (heap_pos base (j + 1))))
                 then (j + 1)%nat else j in
        if less (key v (deref a (heap_pos base i))) (key v (deref a (heap_pos base j)))
        then sift v (INTP_SWAP a (heap_pos base i) (heap_pos base j)) base j (j + j) n fuel
        else a
      else a
  end.

Fixpoint heapify (v : list Qc) (a : list nat) (base l n : nat) : list nat :=
  match l with
  | O => a
  | S l' => heapify v (sift v a base l (l + l) n (length a)) base l' n
  end.

Fixpoint extract (v : list Qc) (a : list nat) (base n : nat) : list nat :=
  match n with
  | O => a
  | S n' =>
      if bool_decide (1 < n)%nat then
        let a := INTP_SWAP a (heap_pos base n) (heap_pos base 1) in
        extract v (sift v a base 1 2 n' (length a)) base n'
      else a
  end.

Definition aheapsort (v : list Qc) (a : list nat) (base n : nat) : list nat :=
  extract v (heapify v a base (n / 2) n) base n.

(** the main loop with its explicit stack of pending partitions *)
Inductive phase := AtDepthCheck | AtPartition.

Fixpoint aquicksort_loop (fuel : nat) (v : list Qc) (a : list nat) (pl pr : nat)
    (cdepth : Z) (stack : list (nat * nat * Z)) (ph : phase) : list nat :=
  match fuel with
  | O => a
  | S fuel =>
      let stack_pop (a : list nat) :=
        match stack with
        | [] => a
        | (pl', pr', d) :: stack' => aquicksort_loop fuel v a pl' pr' d stack' AtDepthCheck
        end in
      match ph with
      | AtDepthCheck =>
          if bool_decide (cdepth < 0)%Z
          then stack_pop (aheapsort v a pl (pr - pl + 1))
          else aquicksort_loop fuel v a pl pr cdepth stack AtPartition
      | AtPartition =>
          if bool_decide (SMALL_QUICKSORT < pr - pl)%nat then
            let '(a, pi) := partition v a pl pr in
            if bool_decide (pi - pl < pr - pi)%nat
            then aquicksort_loop fuel v a pl (pi - 1) (cdepth - 1)
                   ((S pi, pr, (cdepth - 1)%Z) :: stack) AtPartition
            else aquicksort_loop fuel v a (S pi) pr (cdepth - 1)
                   ((pl, (pi - 1)%nat, (cdepth - 1)%Z) :: stack) AtPartition
          else stack_pop (insertion_sort v a pl pr)
      end
  end.

Definition aquicksort (v : list Qc) (tosort : list nat) : list nat :=
  let num := length tosort in
  aquicksort_loop (4 * num + 4) v tosort 0 (num - 1)
    (Z.of_nat (npy_get_msb num) * 2) [] AtDepthCheck.

(** [ndarray.argsort(kind='quicksort')] on a float array *)
Definition argsort (v : list Qc) : list nat := aquicksort v (seq 0 (length v)).

End Numpy.

(** ** pandas: the frame and series operations the app calls *)

Module Pandas.

(** [DataFrame.drop_duplicates(subset)], [keep='first']: a row stays when
    no earlier row has the same values in the subset columns *)
Fixpoint drop_duplicates_from {A K : Type} `{EqDecision K}
    (subset : A → K) (seen : list K) (df : list A) : list A :=
  match df with
  | [] => []
  | r :: df =>
      if bool_decide (subset r ∈ seen) then drop_duplicates_from subset seen df
      else r :: drop_duplicates_from subset (subset r :: seen) df
  end.

Definition drop_duplicates {A K : Type} `{EqDecision K}
    (subset : A → K) (df : list A) : list A :=
  drop_duplicates_from subset [] df.

(** [DataFrame.take(indexer)] *)
Definition take_rows {A : Type} (indexer : list nat) (df : list A) : list A :=
  omap (λ i, df !! i) indexer.

(** [pandas.core.sorting.nargsort] for a float column without NaN.  A
    descending sort reverses the column, sorts ascending and reverses the
    result. *)
Definition nargsort (argsort : list Qc → list nat) (items : list Qc)
    (ascending : bool) : list nat :=
  let idx := seq 0 (length items) in
  let non_nans := if ascending then items else reverse items in
  let non_nan_idx := if ascending then idx else reverse idx in
  let indexer := take_rows (argsort non_nans) non_nan_idx in
  if ascending then indexer else reverse indexer.

(** [DataFrame.sort_values(by, ascending)] with one column, for the
    kernel [argsort] that [kind] stands for; the app leaves [kind] at its
    default, ['quicksort'] *)
Definition sort_values_kind {A : Type} (argsort : list Qc → list nat)
    (by_ : A → Qc) (ascending : bool) (df : list A) : list A :=
  take_rows (nargsort argsort (by_ <$> df) ascending) df.

Definition sort_values {A : Type} (by_ : A → Qc) (ascending : bool)
    (df : list A) : list A :=
  sort_values_kind Numpy.argsort by_ ascending df.

(** a stable ascending sort: each element is put in front of the sorted
    rest, behind the elements with a smaller key *)
Fixpoint insert_sorted {A : Type} (k : A → Qc) (x : A) (sorted : list A) : list A :=
  match sorted with
  | [] => [x]
  | y :: sorted' =>
      if Numpy.less (k y) (k x) then y :: insert_sorted k x sorted' else x :: sorted
  end.

Definition sort_stable {A : Type} (k : A → Qc) (l : list A) : list A :=
  foldr (insert_sorted k) [] l.

(** [ndarray.argsort(kind='mergesort')] *)
Definition argsort_stable (v : list Qc) : list nat :=
  sort_stable (Numpy.key v) (seq 0 (length v)).

(** [Series.idxmax()] / [Series.idxmin()] on a default index: the first
    position holding the largest (smallest) value, NaN skipped *)
Fixpoint idx_best (better : Qc → Qc → bool) (s : list (option Qc)) (pos : nat)
    (best : option (nat * Qc)) : option nat :=
  match s with
  | [] => fst <$> best
  | x :: s =>
      let best' :=
        match x, best with
        | Some y, Some (_, b) => if better y b then Some (pos, y) else best
        | Some y, None => Some (pos, y)
        | None, _ => best
        end in
      idx_best better s (S pos) best'
  end.

Definition idxmax (s : list (option Qc)) : option nat :=
  idx_best (λ y b, bool_decide (b < y)) s 0 None.
Definition idxmin (s : list (option Qc)) : option nat :=
  idx_best (λ y b, bool_decide (y < b)) s 0 None.

(** [Series.nlargest(n)], [keep='first'], for [n] below the length: the
    positions of the non-NaN values in descending order, earlier
    positions first among equals, then the NaN positions, cut at [n] *)
Definition positions_where {A : Type} (P : A → bool) (s : list A) : list nat :=
  filter (λ i, from_option P false (s !! i)) (seq 0 (length s)).

Definition nlargest (n : nat) (s : list (option Qc)) : list nat :=
  let dropped := positions_where (λ x : option Qc, bool_decide (is_Some x)) s in
  let nan_index := positions_where (λ x : option Qc, bool_decide (x = None)) s in
  let arr := (λ i, Qcopp (default 0 (mjoin (s !! i)))) <$> dropped in
  let inds := take_rows (argsort_stable arr) dropped in
  take n (take n inds ++ nan_index).

(** [Series.mean()] *)
Definition sum (l : list Qc) : Qc := foldr Qcplus 0 l.
Definition mean (l : list Qc) : Qc := sum l / Qc_of_Z (Z.of_nat (length l)).

(** the sorted distinct keys of a [groupby] *)
Fixpoint insert_key (k : string) (ks : list string) : list string :=
  match ks with
  | [] => [k]
  | k' :: ks' => if String.leb k k' then k :: ks else k' :: insert_key k ks'
  end.
Definition group_keys (ks : list string) : list string :=
  foldr insert_key [] (remove_dups ks).

(** [df.groupby(key)[col].mean()]: a series indexed by the sorted keys *)
Definition groupby_mean {A : Type} (key : A → string) (col : A → Qc)
    (df : list A) : list (string * Qc) :=
  (λ k, (k, mean (col <$> filter (λ r, key r = k) df))) <$> group_keys (key <$> df).

(** label lookup in a series; [Series.map(series)] gives NaN on a miss *)
Definition series_get (s : list (string * Qc)) (k : string) : option Qc :=
  snd <$> head (filter (λ p, p.1 = k) s).
Definition map_series (keys : list string) (s : list (string * Qc)) : list (option Qc) :=
  series_get s <$> keys.

(** [Series.fillna(value)] *)
Definition fillna {A : Type} (value : A) (s : list (option A)) : list (option A) :=
  (λ x, Some (default value x)) <$> s.

(** element-wise subtraction of two float series; NaN propagates *)
Definition series_sub (s1 s2 : list (option Qc)) : list (option Qc) :=
  zip_with (λ x y, match x, y with Some a, Some b => Some (a - b) | _, _ => None end) s1 s2.

(** the same with the subtraction [sub] of the number format *)
Definition series_sub_with (sub : Qc → Qc → Qc) (s1 s2 : list (option Qc))
    : list (option Qc) :=
  zip_with (λ x y, match x, y with Some a, Some b => Some (sub a b) | _, _ => None end) s1 s2.

(** [str.split(sep)[0]] for a non-empty separator *)
Fixpoint split_head (sep s : string) : string :=
  match s with
  | EmptyString => EmptyString
  | String c s' => if String.prefix sep s then EmptyString else String c (split_head sep s')
  end.

End Pandas.

(** ** Data model *)

(** one row of the [get_talent_matches] result *)
Record ScoredRow := mkScoredRow {
  employee_id : string;
  role : string;
  grade : string;
  directorate : string;
  final_match_rate : Qc;
  is_benchmark : bool;
  tgv_name : string;
  tgv_match_rate : Qc
}.

(** one row of [get_employee_list()]; [fullname] may be null *)
Record DirectoryEntry := mkDirectoryEntry {
  dir_employee_id : string;
  dir_fullname : option string
}.

(** the columns of [df_ranked] *)
Record EmployeeRow := mkEmployeeRow {
  e_employee_id : string;
  e_role : string;
  e_grade : string;
  e_directorate : string;
  e_final_match_rate : Qc;
  e_is_benchmark : bool
}.

(** [st.session_state.sql_results]: [pd.DataFrame(response.data)] has the
    columns of the rows it was built from, [pd.DataFrame()] has no column.
    The display block tests for the columns [tgv_name] and [tgv_match_rate]
    (lines 293 and 369): a frame may hold the employee-level columns only. *)
Inductive DataFrame :=
  | NoColumns
  | Frame (rows : list ScoredRow)
  | FrameWithoutTgv (rows : list EmployeeRow).

Definition DataFrame_of (data : list ScoredRow) : DataFrame :=
  match data with
  | [] => NoColumns
  | _ => Frame data
  end.

Definition empty (df : DataFrame) : bool :=
  match df with
  | NoColumns => true
  | Frame rows => bool_decide (rows = [])
  | FrameWithoutTgv rows => bool_decide (rows = [])
  end.

Record RankedRow := mkRankedRow {
  base : EmployeeRow;
  fullname : option string;
  top_tgv : string
}.

Record RankedCandidate := mkRankedCandidate {
  Rank : nat;
  candidate : RankedRow
}.

Record RadarRow := mkRadarRow {
  radar_tgv_name : string;
  Benchmark_Avg : option Qc;
  Candidate : option Qc
}.

Global Instance ScoredRow_eq_dec : EqDecision ScoredRow.
Proof. solve_decision. Defined.
Global Instance EmployeeRow_eq_dec : EqDecision EmployeeRow.
Proof. solve_decision. Defined.

(** ** Ranking and aggregation *)

Definition tgv_columns (r : ScoredRow) : string * string * Qc :=
  (employee_id r, tgv_name r, tgv_match_rate r).

Definition employee_columns (r : ScoredRow) : EmployeeRow :=
  mkEmployeeRow (employee_id r) (role r) (grade r) (directorate r)
    (final_match_rate r) (is_benchmark r).

(** [df[['employee_id','tgv_name','tgv_match_rate']].drop_duplicates()] *)
Definition df_unique_tgv (rows : list ScoredRow) : list (string * string * Qc) :=
  Pandas.drop_duplicates id (tgv_columns <$> rows).

(** the row that [groupby('employee_id')['tgv_match_rate'].idxmax()] picks
    for the group of employee [e] *)
Definition idxmax_row (e : string) (u : list (string * string * Qc))
    : option (string * string * Qc) :=
  let g := filter (λ t, t.1.1 = e) u in
  Pandas.idxmax ((λ t, Some t.2) <$> g) ≫= (λ i, g !! i).

(** [idx[['employee_id', 'tgv_name']]] as a lookup table: one row per
    employee of the de-duplicated frame [u] *)
Definition top_tgv_of (u : list (string * string * Qc)) : gmap string string :=
  list_to_map
    (omap (λ e, (λ t : string * string * Qc, (e, t.1.2)) <$> idxmax_row e u)
       (remove_dups ((λ t, t.1.1) <$> u))).

(** [df_top_tgv]: employee_id -> top_tgv (lines 292-299) *)
Definition computeTopDomainPerEmployee (rows : list ScoredRow) : gmap string string :=
  top_tgv_of (df_unique_tgv rows).

(** [pd.merge(df_ranked, employee_list_df[['employee_id','fullname']],
    on='employee_id', how='left')] *)
Definition merge_fullname (df_ranked : list EmployeeRow) (directory : list DirectoryEntry)
    : list (EmployeeRow * option string) :=
  df_ranked ≫= (λ r,
    match filter (λ d, dir_employee_id d = e_employee_id r) directory with
    | [] => [(r, None)]
    | matches => (λ d, (r, dir_fullname d)) <$> matches
    end).

(** [pd.merge(df_ranked, df_top_tgv, on='employee_id', how='left')] followed
    by [fillna('N/A')] *)
Definition merge_top_tgv (df_top_tgv : gmap string string)
    (df_ranked : list (EmployeeRow * option string)) : list RankedRow :=
  (λ p, mkRankedRow p.1 p.2 (default "N/A" (df_top_tgv !! e_employee_id p.1))) <$> df_ranked.

(** [df_ranked] before the benchmark filter (lines 302-315) *)
Definition df_ranked (rows : list ScoredRow) (directory : list DirectoryEntry)
    : list RankedRow :=
  let df_top_tgv :=
    if bool_decide (rows = []) then ∅ else computeTopDomainPerEmployee rows in
  let ranked := Pandas.drop_duplicates e_employee_id (employee_columns <$> rows) in
  let ranked := merge_fullname ranked directory in
  let ranked := filter (λ p, p.2 ≠ None) ranked in
  let ranked := filter (λ p, p.2 ≠ Some "") ranked in
  if bool_decide (df_top_tgv = ∅)
  then (λ p, mkRankedRow p.1 p.2 "N/A") <$> ranked
  else merge_top_tgv df_top_tgv ranked.

(** [df_ranked] for a frame without the TGV columns: the guard of line 293
    fails, [df_top_tgv] stays the empty [pd.DataFrame()] and line 315 sets
    the column *)
Definition df_ranked_without_tgv (rows : list EmployeeRow) (directory : list DirectoryEntry)
    : list RankedRow :=
  let ranked := Pandas.drop_duplicates e_employee_id rows in
  let ranked := merge_fullname ranked directory in
  let ranked := filter (λ p, p.2 ≠ None) ranked in
  let ranked := filter (λ p, p.2 ≠ Some "") ranked in
  (λ p, mkRankedRow p.1 p.2 "N/A") <$> ranked.

(** the candidates before sorting (line 318) *)
Definition candidates (rows : list ScoredRow) (directory : list DirectoryEntry)
    : list RankedRow :=
  filter (λ r, e_is_benchmark (base r) = false) (df_ranked rows directory).

(** [insert(0, 'Rank', range(1, len + 1))] *)
Definition insert_Rank (df : list RankedRow) : list RankedCandidate :=
  zip_with mkRankedCandidate (seq 1 (length df)) df.

(** [df_ranked_candidates] (lines 302-320) *)
Definition buildRankedCandidates (rows : list ScoredRow) (directory : list DirectoryEntry)
    : list RankedCandidate :=
  insert_Rank (Pandas.sort_values (λ r, e_final_match_rate (base r)) false
                 (candidates rows directory)).

(** the same with the sort kernel that [kind='quicksort'] dispatches to as
    an argument *)
Definition buildRankedCandidates_kind (argsort : list Qc → list nat)
    (rows : list ScoredRow) (directory : list DirectoryEntry) : list RankedCandidate :=
  insert_Rank (Pandas.sort_values_kind argsort (λ r, e_final_match_rate (base r)) false
                 (candidates rows directory)).

(** [df_ranked_candidates] of a frame without the TGV columns *)
Definition buildRankedCandidates_without_tgv (rows : list EmployeeRow)
    (directory : list DirectoryEntry) : list RankedCandidate :=
  insert_Rank (Pandas.sort_values (λ r, e_final_match_rate (base r)) false
                 (filter (λ r, e_is_benchmark (base r) = false)
                    (df_ranked_without_tgv rows directory))).

(** [avg_tgv] (lines 370-372) *)
Definition domainDistribution (rows : list ScoredRow) : list (string * Qc) :=
  let df_tgv_unique := df_unique_tgv rows in
  let avg_tgv := Pandas.groupby_mean (λ t : string * string * Qc, t.1.2) snd df_tgv_unique in
  Pandas.sort_values snd true avg_tgv.

Definition default_tgvs : list string :=
  [ "Competency";
    "Psychometric (Cognitive)";
    "Psychometric (Personality)";
    "Behavioral (Strengths)";
    "Contextual (Background)" ].

(** the per-domain means of a slice of the frame (lines 403-404) *)
Definition tgv_avg (data : list ScoredRow) : list (string * Qc) :=
  Pandas.groupby_mean (λ t : string * string * Qc, t.1.2) snd (df_unique_tgv data).

(** [radar_df] (lines 399-416), for the domain list [canonicalDomains] *)
Definition buildComparisonVector (rows : list ScoredRow) (selected_candidate_id : string)
    (canonicalDomains : list string) : list RadarRow :=
  let benchmark_data := filter (λ r, is_benchmark r = true) rows in
  let candidate_data := filter (λ r, employee_id r = selected_candidate_id) rows in
  let bench_tgv_avg := tgv_avg benchmark_data in
  let cand_tgv_avg := tgv_avg candidate_data in
  let bench := Pandas.fillna 0 (Pandas.map_series canonicalDomains bench_tgv_avg) in
  let cand := Pandas.fillna 0 (Pandas.map_series canonicalDomains cand_tgv_avg) in
  zip_with (λ n bc, mkRadarRow n bc.1 bc.2) canonicalDomains (zip bench cand).

(** the Summary Insights block (lines 442-480) *)
Inductive Reasons :=
  | Strong (top : list RadarRow)
  | Balanced.

Inductive Insights :=
  | Summary (strongest largest_gap : RadarRow) (why : Reasons)
  | CouldNotDetermine.

Definition diffs (radar_df : list RadarRow) : list (option Qc) :=
  Pandas.series_sub (Candidate <$> radar_df) (Benchmark_Avg <$> radar_df).

Definition at_least (x y : option Qc) : bool :=
  match x, y with
  | Some a, Some b => bool_decide (b ≤ a)
  | _, _ => false
  end.

(** [radar_df.nlargest(3, 'Candidate')] *)
Definition top_tgvs (radar_df : list RadarRow) : list RadarRow :=
  Pandas.take_rows (Pandas.nlargest 3 (Candidate <$> radar_df)) radar_df.

Definition top_reasons (radar_df : list RadarRow) : list RadarRow :=
  filter (λ row, at_least (Candidate row) (Benchmark_Avg row) = true) (top_tgvs radar_df).

Definition computeInsights (radar_df : list RadarRow) : option Insights :=
  let d := diffs radar_df in
  if bool_decide (Exists is_Some d) then
    idx_max_diff ← Pandas.idxmax d;
    idx_min_diff ← Pandas.idxmin d;
    strongest ← radar_df !! idx_max_diff;
    gap ← radar_df !! idx_min_diff;
    let reasons := top_reasons radar_df in
    Some (Summary strongest gap (if reasons is [] then Balanced else Strong reasons))
  else Some CouldNotDetermine.

(** the Summary Insights block with the subtraction [sub] of the number
    format in line 444 *)
Definition diffs_with (sub : Qc → Qc → Qc) (radar_df : list RadarRow) : list (option Qc) :=
  Pandas.series_sub_with sub (Candidate <$> radar_df) (Benchmark_Avg <$> radar_df).

Definition computeInsights_with (sub : Qc → Qc → Qc) (radar_df : list RadarRow)
    : option Insights :=
  let d := diffs_with sub radar_df in
  if bool_decide (Exists is_Some d) then
    idx_max_diff ← Pandas.idxmax d;
    idx_min_diff ← Pandas.idxmin d;
    strongest ← radar_df !! idx_max_diff;
    gap ← radar_df !! idx_min_diff;
    let reasons := top_reasons radar_df in
    Some (Summary strongest gap (if reasons is [] then Balanced else Strong reasons))
  else Some CouldNotDetermine.

(** ** The display block (lines 275-487) *)

Inductive Exn :=
  | KeyError
  | IndexError
  | AttributeError
  | ExternalError.

(** the arguments of the [px.histogram] call and of its [update_layout] *)
Record Histogram := mkHistogram {
  hist_x : list Qc;
  nbins : nat;
  xaxis_range : Z * Z
}.

Record Comparison := mkComparison {
  selected_candidate_id : string;
  radar_df : list RadarRow;
  insights : Insights
}.

Record Display := mkDisplay {
  ranked_table : list RankedCandidate;
  match_rate_chart : option Histogram;     (* [None]: "No candidate data available." *)
  avg_tgv_chart : option (list (string * Qc)); (* [None]: "No TGV data available." *)
  comparison : option Comparison           (* [None]: "No candidates available for comparison." *)
}.

(** [st.selectbox]: the option the user picked, the first one by default *)
Definition selectbox (options : list string) (choice : nat) : option string :=
  match options !! choice with
  | Some o => Some o
  | None => head options
  end.

Definition candidate_options (ranked : list RankedCandidate) : list string :=
  (λ c, e_employee_id (base (candidate c)) +:+ " - " +:+ default "" (fullname (candidate c)))
    <$> ranked.

Definition compare_candidate (rows : list ScoredRow) (ranked : list RankedCandidate)
    (choice : nat) : Exn + Comparison :=
  match selectbox (candidate_options ranked) choice with
  | None => inl AttributeError
  | Some selected_candidate_display =>
      let selected := Pandas.split_head " - " selected_candidate_display in
      let radar := buildComparisonVector rows selected default_tgvs in
      match computeInsights radar with
      | None => inl KeyError
      | Some i => inr (mkComparison selected radar i)
      end
  end.

(** what the [try] body computes from the frame in the session state; an
    [inl] is the exception that the handler at line 485 reports *)
Definition display (df : DataFrame) (directory : list DirectoryEntry) (choice : nat)
    : Exn + Display :=
  match df with
  | NoColumns => inl KeyError   (* line 302: [df[[...]]] of columns it has not *)
  | Frame rows =>
      let ranked := buildRankedCandidates rows directory in
      let chart1 :=
        if bool_decide (ranked = []) then None
        else Some (mkHistogram ((λ c, e_final_match_rate (base (candidate c))) <$> ranked)
                     20 (0, 100)%Z) in
      let chart2 := if empty df then None else Some (domainDistribution rows) in
      if bool_decide (ranked = []) then inr (mkDisplay ranked chart1 chart2 None)
      else
        match compare_candidate rows ranked choice with
        | inl e => inl e
        | inr c => inr (mkDisplay ranked chart1 chart2 (Some c))
        end
  | FrameWithoutTgv rows =>
      let ranked := buildRankedCandidates_without_tgv rows directory in
      if bool_decide (ranked = []) then inr (mkDisplay ranked None None None)
      else inl KeyError         (* line 403: [benchmark_data[[..., 'tgv_name', ...]]] *)
  end.

(** ** The Generate action (lines 189-270) *)

(** the JSON value of a [vacancy_id] column *)
Inductive Id :=
  | IdInt (n : Z)
  | IdStr (s : string).

Definition truthy (v : option Id) : bool :=
  match v with
  | None => false
  | Some (IdInt n) => bool_decide (n ≠ 0%Z)
  | Some (IdStr s) => bool_decide (s ≠ "")
  end.

Record Inputs := mkInputs {
  in_role : string;
  in_level : string;
  in_purpose : string;
  in_benchmarks : list string
}.

Record AuditRecord := mkAuditRecord {
  vacancy_id : Id;
  candidate_id : string;
  match_rate : option Qc;
  gap_report : list (string * string);
  recommendations : option string
}.

Inductive Event :=
  | Rpc_get_talent_matches (benchmark_ids : list string)
  | Insert_job_vacancies (vacancy : Inputs)
  | Insert_vacancy_audit (audit_payload : list AuditRecord)
  | St_success (text : string)
  | St_warning (text : string)
  | St_error (text : string).

(** what the external services answer; [None] is a raised exception *)
Record Supabase := mkSupabase {
  get_talent_matches : list string → option (list ScoredRow);
  insert_job_vacancies : Inputs → option (list Id);
  insert_vacancy_audit : list AuditRecord → option unit
}.

Record SessionState := mkSessionState {
  sql_results : option DataFrame;
  inputs : option Inputs;
  session_vacancy_id : option Id
}.

(** the script's effects: the session state, the log of calls and
    messages, and exceptions *)
Definition App (A : Type) : Type :=
  SessionState * list Event → (Exn + A) * (SessionState * list Event).

Global Instance App_ret : MRet App := λ A x st, (inr x, st).
Global Instance App_bind : MBind App := λ A B f m st,
  match m st with
  | (inr x, st') => f x st'
  | (inl e, st') => (inl e, st')
  end.

Definition raise {A : Type} (e : Exn) : App A := λ st, (inl e, st).
Definition try_except {A : Type} (body : App A) (handler : Exn → App A) : App A := λ st,
  match body st with
  | (inr x, st') => (inr x, st')
  | (inl e, st') => handler e st'
  end.
Definition emit (ev : Event) : App unit := λ st, (inr (), (st.1, st.2 ++ [ev])).
Definition modify (f : SessionState → SessionState) : App unit := λ st, (inr (), (f st.1, st.2)).
Definition call {A : Type} (ev : Event) (answer : option A) : App A :=
  emit ev ≫= λ _, match answer with Some x => mret x | None => raise ExternalError end.

Definition audit_payload_of (vid : Id) (df : DataFrame) : list AuditRecord :=
  match df with
  | NoColumns => []
  | Frame rows =>
      (λ row, mkAuditRecord vid (employee_id row) (Some (final_match_rate row)) [] None) <$> rows
  | FrameWithoutTgv rows =>
      (λ row, mkAuditRecord vid (e_employee_id row) (Some (e_final_match_rate row)) [] None)
        <$> rows
  end.

Definition register_vacancy (db : Supabase) (i : Inputs) : App (option Id) :=
  try_except
    (data ← call (Insert_job_vacancies i) (insert_job_vacancies db i);
     match data with
     | [] => raise IndexError
     | vid :: _ =>
         modify (λ s, mkSessionState (sql_results s) (inputs s) (Some vid));;
         emit (St_success "Vacancy registered");;
         mret (Some vid)
     end)
    (λ _, emit (St_error "Failed to insert vacancy");; mret None).

Definition record_audit (db : Supabase) (vid : option Id) (df : DataFrame) : App unit :=
  match vid with
  | Some v =>
      if truthy vid && negb (empty df) then
        try_except
          (let audit_payload := audit_payload_of v df in
           call (Insert_vacancy_audit audit_payload) (insert_vacancy_audit db audit_payload);;
           emit (St_success "Audit trail recorded."))
          (λ _, emit (St_error "Failed to store audit trail"))
      else mret ()
  | None => mret ()
  end.

Definition on_generate (db : Supabase) (form : Inputs) : App (option Id) :=
  let selected_benchmark_ids := in_benchmarks form in
  if bool_decide (selected_benchmark_ids = []) then
    emit (St_error "Please select at least one benchmark employee.");; mret None
  else
    try_except
      (data ← call (Rpc_get_talent_matches selected_benchmark_ids)
                (get_talent_matches db selected_benchmark_ids);
       let df_sql_results := DataFrame_of data in
       (if data is [] then emit (St_warning "Query executed but returned no data.")
        else emit (St_success "Analysis complete!"));;
       modify (λ s, mkSessionState (Some df_sql_results) (Some form) (session_vacancy_id s));;
       vid ← register_vacancy db form;
       record_audit db vid df_sql_results;;
       mret vid)
      (λ _, emit (St_error "Database query failed");; mret None).

(** the script after a click on Generate: the handler, then the display
    block when the session holds results *)
Definition display_block (s : SessionState) (directory : list DirectoryEntry) (choice : nat)
    : option (Exn + Display) :=
  (λ df, display df directory choice) <$> sql_results s.

Definition initial_session : SessionState := mkSessionState None None None.

(** ** Vocabulary of the properties *)

(** the employee-level columns of an employee are those of its first row *)
Definition first_row (rows : list ScoredRow) (e : string) : option ScoredRow :=
  head (filter (λ r, employee_id r = e) rows).

Definition non_benchmark (rows : list ScoredRow) (e : string) : Prop :=
  is_benchmark <$> first_row rows e = Some false.

Global Instance non_benchmark_dec rows e : Decision (non_benchmark rows e).
Proof. unfold non_benchmark. apply _. Defined.

(** the directory entries that give employee [e] a non-empty fullname *)
Definition named_entries (directory : list DirectoryEntry) (e : string)
    : list DirectoryEntry :=
  filter (λ d, dir_employee_id d = e ∧ dir_fullname d ≠ None ∧ dir_fullname d ≠ Some "")
    directory.

(** the distinct employees with [is_benchmark = false] and a non-empty
    directory-matched fullname *)
Definition eligible_employees (rows : list ScoredRow) (directory : list DirectoryEntry)
    : list string :=
  filter (λ e, non_benchmark rows e ∧ named_entries directory e ≠ [])
    (remove_dups (employee_id <$> rows)).

(** the (employee_id, fullname) pairs that the directory lists for [e] *)
Definition listing (directory : list DirectoryEntry) (e : string)
    : list (string * option string) :=
  (λ d, (e, dir_fullname d)) <$> named_entries directory e.

(** the invariant of the data model: the employee-level columns repeat on
    every row of an employee *)
Definition employee_level_consistent (rows : list ScoredRow) : Prop :=
  ∀ r r', r ∈ rows → r' ∈ rows → employee_id r = employee_id r' →
    employee_columns r = employee_columns r'.



(** the first row of a frame that holds the largest rate, as one pass that
    keeps the best row met so far *)
Fixpoint first_max_from (best : option (string * string * Qc))
    (l : list (string * string * Qc)) : option (string * string * Qc) :=
  match l with
  | [] => best
  | t :: l =>
      first_max_from
        match best with
        | Some b => if bool_decide (b.2 < t.2) then Some t else best
        | None => Some t
        end l
  end.

(** the value of domain [d] in a slice of the frame: the mean of its
    de-duplicated rates, 0 when the slice has no row of the domain *)
Definition domain_value (data : list ScoredRow) (d : string) : Qc :=
  match filter (λ t : string * string * Qc, t.1.2 = d) (df_unique_tgv data) with
  | [] => 0
  | ts => Pandas.mean (snd <$> ts)
  end.

Definition candidate_value (row : RadarRow) : Qc := default 0 (Candidate row).
Definition benchmark_value (row : RadarRow) : Qc := default 0 (Benchmark_Avg row).
Definition diff_value (row : RadarRow) : Qc := candidate_value row - benchmark_value row.
Definition numeric (row : RadarRow) : Prop :=
  is_Some (Benchmark_Avg row) ∧ is_Some (Candidate row).

(** sample data *)
Definition scored (e : string) (final : Z) (benchmark : bool) (tgv : string) (r : Z)
    : ScoredRow :=
  mkScoredRow e "Sales" "III" "Commercial" (Qc_of_Z final) benchmark tgv (Qc_of_Z r).

Definition rows_basic : list ScoredRow :=
  [ scored "E1" 80 false "Competency" 90; scored "E2" 95 false "Competency" 70 ].

Definition directory_basic : list DirectoryEntry :=
  [ mkDirectoryEntry "E1" (Some "Alice"); mkDirectoryEntry "E2" (Some "Bob") ].

(** a comparison vector in which the candidate equals the benchmark *)
Definition radar_balanced : list RadarRow :=
  (λ d, mkRadarRow d (Some (Qc_of_Z 70)) (Some (Qc_of_Z 70))) <$> default_tgvs.

(** one candidate with two domain rows, and one benchmark employee *)
Definition rows_two_domains : list ScoredRow :=
  [ scored "E1" 80 false "Competency" 90;
    scored "E1" 80 false "Psychometric (Cognitive)" 70;
    scored "B1" 100 true "Competency" 95 ].

Definition form_sample : Inputs :=
  mkInputs "Sales" "Junior" "Drive sales growth" ["B1"].

(** services that answer every call; the scoring procedure returns [data] *)
Definition db_answering (data : list ScoredRow) : Supabase :=
  mkSupabase (λ _, Some data) (λ _, Some [IdInt 7]) (λ _, Some ()).

(** the same, with a failing insert into [job_vacancies] *)
Definition db_vacancy_failing (data : list ScoredRow) : Supabase :=
  mkSupabase (λ _, Some data) (λ _, None) (λ _, Some ()).

Definition ranked_id (c : RankedCandidate) : string := e_employee_id (base (candidate c)).

(** position [i] of the series holds [y], no value beats [y] in the order
    [lt], and [y] beats every value before [i] *)
Definition first_best (lt : Qc → Qc → Prop) (s : list (option Qc)) (i : nat) (y : Qc)
    : Prop :=
  s !! i = Some (Some y)
  ∧ ∀ j y', s !! j = Some (Some y') → ¬ lt y y' ∧ ((j < i)%nat → lt y' y).


(** ** The sidebar: benchmark selection (lines 66, 175-182) *)

(** [str.split(c)] for a one-character separator *)
Fixpoint split_on (c : ascii) (s : string) : list string :=
  match s with
  | EmptyString => [EmptyString]
  | String a s' =>
      if Ascii.eqb a c then EmptyString :: split_on c s'
      else match split_on c s' with
           | piece :: pieces => String a piece :: pieces
           | [] => [String a EmptyString]
           end
  end.

(** [str.replace(c, '')] *)
Fixpoint remove_char (c : ascii) (s : string) : string :=
  match s with
  | EmptyString => EmptyString
  | String a s' => if Ascii.eqb a c then remove_char c s' else String a (remove_char c s')
  end.

Fixpoint has_char (c : ascii) (s : string) : bool :=
  match s with
  | EmptyString => false
  | String a s' => Ascii.eqb a c || has_char c s'
  end.

(** [df['display'] = df['fullname'] + " (" + df['employee_id'] + ")"] *)
Definition display_of (d : DirectoryEntry) : option string :=
  (λ f, f +:+ " (" +:+ dir_employee_id d +:+ ")") <$> dir_fullname d.

(** [display_str.split('(')[-1].replace(')', '')] *)
Definition benchmark_id_of (display_str : string) : string :=
  remove_char ")"%char (default "" (last (split_on "("%char display_str))).

Definition selected_benchmark_ids (selected_benchmarks : list string) : list string :=
  benchmark_id_of <$> selected_benchmarks.

(** ** The sort kernel as numpy documents it *)






(** the difference of a row as the number format computes it *)
Definition diff_with (sub : Qc → Qc → Qc) (row : RadarRow) : Qc :=
  sub (candidate_value row) (benchmark_value row).

(** a comparison vector with five different differences *)
Definition radar_mixed : list RadarRow :=
  zip_with (λ d bc, mkRadarRow d (Some (Qc_of_Z bc.1)) (Some (Qc_of_Z bc.2))) default_tgvs
    [ (60, 90); (70, 40); (50, 50); (80, 85); (30, 20) ]%Z.

(** * The sort kernel rearranges, never loses, positions *)

Section kernel_permutes.
Import Numpy.
Implicit Types (v : list Qc) (a : list nat).

Lemma INTP_SWAP_perm a p q : INTP_SWAP a p q ≡ₚ a.
Proof.
  unfold INTP_SWAP.
  destruct (a !! p) as [x|] eqn:Hp; [|done].
  destruct (a !! q) as [y|] eqn:Hq; [|done].
  by apply Permutation_insert_swap.
Qed.

Lemma median3_perm v a pl pm pr : median3 v a pl pm pr ≡ₚ a.
Proof.
  unfold median3.
  repeat (case_match; rewrite ?INTP_SWAP_perm); done.
Qed.

Lemma hoare_perm v vp fuel : ∀ a pi pj, (hoare v a vp pi pj fuel).1 ≡ₚ a.
Proof.
  induction fuel as [|fuel IH]; intros a pi pj; simpl; [done|].
  case_bool_decide; [done|].
  rewrite IH. apply INTP_SWAP_perm.
Qed.

Lemma partition_perm v a pl pr : (partition v a pl pr).1 ≡ₚ a.
Proof.
  unfold partition.
  destruct (hoare _ _ _ _ _ _) as [a' pi] eqn:Hh. simpl.
  rewrite INTP_SWAP_perm.
  change a' with (a', pi).1. rewrite <-Hh, hoare_perm, INTP_SWAP_perm.
  apply median3_perm.
Qed.

Lemma sink_perm v pl fuel : ∀ a pj, sink v a pl pj fuel ≡ₚ a.
Proof.
  induction fuel as [|fuel IH]; intros a pj; simpl; [done|].
  case_match; [|done]. rewrite IH. apply INTP_SWAP_perm.
Qed.

Lemma insertion_perm v pl count : ∀ a pi, insertion v a pl pi count ≡ₚ a.
Proof.
  induction count as [|count IH]; intros a pi; simpl; [done|].
  rewrite IH. apply sink_perm.
Qed.

Lemma sift_perm v base n fuel : ∀ a i j, sift v a base i j n fuel ≡ₚ a.
Proof.
  induction fuel as [|fuel IH]; intros a i j; simpl; [done|].
  case_bool_decide; [|done].
  case_match; [|done]. rewrite IH. apply INTP_SWAP_perm.
Qed.

Lemma heapify_perm v base n l : ∀ a, heapify v a base l n ≡ₚ a.
Proof.
  induction l as [|l IH]; intros a; simpl; [done|].
  rewrite IH. apply sift_perm.
Qed.

Lemma extract_perm v base n : ∀ a, extract v a base n ≡ₚ a.
Proof.
  induction n as [|n IH]; intros a; simpl; [done|].
  case_bool_decide; [|done].
  rewrite IH, sift_perm. apply INTP_SWAP_perm.
Qed.

Lemma aheapsort_perm v a base n : aheapsort v a base n ≡ₚ a.
Proof. unfold aheapsort. rewrite extract_perm. apply heapify_perm. Qed.

Lemma aquicksort_loop_perm v fuel :
  ∀ a pl pr cdepth stack ph, aquicksort_loop fuel v a pl pr cdepth stack ph ≡ₚ a.
Proof.
  induction fuel as [|fuel IH]; intros a pl pr cdepth stack ph; simpl; [done|].
  destruct ph.
  - case_bool_decide; [|apply IH].
    destruct stack as [|[[pl' pr'] d] stack].
    + apply aheapsort_perm.
    + rewrite IH. apply aheapsort_perm.
  - case_bool_decide.
    + destruct (partition v a pl pr) as [a' pi] eqn:Hp.
      assert (a' ≡ₚ a) as Ha'.
      { change a' with (a', pi).1. rewrite <-Hp. apply partition_perm. }
      case_bool_decide; by rewrite IH.
    + destruct stack as [|[[pl' pr'] d] stack].
      * apply insertion_perm.
      * rewrite IH. apply insertion_perm.
Qed.

Lemma argsort_perm v : argsort v ≡ₚ seq 0 (length v).
Proof. apply aquicksort_loop_perm. Qed.
End kernel_permutes.

(** * Facts on the pandas operations *)

Section take_rows.
Context {A : Type}.
Implicit Types (df : list A) (indexer : list nat).
Import Pandas.

Lemma lookup_seq_all df : (λ i, df !! i) <$> seq 0 (length df) = Some <$> df.
Proof.
  induction df as [|x df IH] using rev_ind; [done|].
  rewrite length_app. simpl.
  replace (length df + 1)%nat with (S (length df)) by lia.
  rewrite seq_S, !fmap_app. simpl. f_equal.
  - rewrite <-IH. apply list_fmap_ext. intros i j Hj.
    apply lookup_seq in Hj as [-> Hlt]. simpl.
    by rewrite lookup_app_l.
  - by rewrite list_lookup_middle.
Qed.

Lemma take_rows_fmap indexer df :
  take_rows indexer df = omap id ((λ i, df !! i) <$> indexer).
Proof.
  unfold take_rows. induction indexer as [|i l IH]; [done|].
  csimpl. rewrite IH. by destruct (df !! i).
Qed.

Lemma omap_id_Some (l : list A) : omap id (Some <$> l) = l.
Proof. induction l as [|x l IH]; csimpl; [done|]. by rewrite IH. Qed.

Lemma take_rows_seq df : take_rows (seq 0 (length df)) df = df.
Proof. by rewrite take_rows_fmap, lookup_seq_all, omap_id_Some. Qed.

Lemma take_rows_perm indexer df :
  indexer ≡ₚ seq 0 (length df) → take_rows indexer df ≡ₚ df.
Proof.
  intros H. unfold take_rows. rewrite H.
  apply reflexive_eq, take_rows_seq.
Qed.

Lemma take_rows_reverse indexer df :
  take_rows (reverse indexer) df = reverse (take_rows indexer df).
Proof.
  unfold take_rows. induction indexer as [|i l IH]; [done|].
  rewrite reverse_cons, omap_app, IH. csimpl.
  destruct (df !! i); csimpl; [by rewrite reverse_cons|by rewrite app_nil_r].
Qed.
End take_rows.

Section sort_values.
Context {A : Type}.
Implicit Types (df : list A) (col : A → Qc).
Import Pandas.



Lemma nargsort_perm argsort (items : list Qc) ascending :
  (∀ v, argsort v ≡ₚ seq 0 (length v)) →
  nargsort argsort items ascending ≡ₚ seq 0 (length items).
Proof.
  intros Hk. unfold nargsort. destruct ascending.
  - rewrite take_rows_perm; [done|]. by rewrite length_seq.
  - rewrite reverse_Permutation, take_rows_perm; [apply reverse_Permutation|].
    by rewrite Hk, !length_reverse, length_seq.
Qed.

Lemma sort_values_perm col ascending df : sort_values col ascending df ≡ₚ df.
Proof.
  unfold sort_values, sort_values_kind. apply take_rows_perm.
  rewrite nargsort_perm by apply argsort_perm. by rewrite length_fmap.
Qed.
End sort_values.

(** * The stable insertion sort *)

Lemma less_spec x y : Numpy.less x y = true ↔ x < y.
Proof. unfold Numpy.less. by rewrite bool_decide_eq_true. Qed.

Lemma less_false x y : Numpy.less x y = false ↔ y ≤ x.
Proof.
  unfold Numpy.less. rewrite bool_decide_eq_false. split.
  - apply Qcnot_lt_le.
  - intros H1 H2. by apply Qcle_not_lt in H1.
Qed.

Lemma Qcopp_le_iff x y : - x ≤ - y ↔ y ≤ x.
Proof.
  split; intros H; [|by apply Qcopp_le_compat].
  apply Qcopp_le_compat in H. by rewrite !Qcopp_involutive in H.
Qed.

Lemma less_opp x y : Numpy.less (- x) (- y) = Numpy.less y x.
Proof.
  unfold Numpy.less. apply bool_decide_ext.
  by rewrite !Qclt_nge, Qcopp_le_iff.
Qed.

Section sort_stable.
Context {A : Type} (k : A → Qc).
Implicit Types (x y : A) (l : list A).
Import Pandas.

Lemma insert_sorted_perm x l : insert_sorted k x l ≡ₚ x :: l.
Proof.
  induction l as [|y l IH]; simpl; [done|].
  case_match; [|done]. rewrite IH. apply Permutation_swap.
Qed.

Lemma length_insert_sorted x l : length (insert_sorted k x l) = S (length l).
Proof. by rewrite insert_sorted_perm. Qed.

Lemma sort_stable_perm l : sort_stable k l ≡ₚ l.
Proof.
  induction l as [|x l IH]; [done|].
  change (sort_stable k (x :: l)) with (insert_sorted k x (sort_stable k l)).
  by rewrite insert_sorted_perm, IH.
Qed.

(** the elements of one key keep their order *)
Lemma filter_insert_sorted (P : A → Prop) `{∀ x, Decision (P x)} x l :
  (∀ y z, P y → P z → k y = k z) →
  filter P (insert_sorted k x l) = filter P (x :: l).
Proof.
  intros HP. induction l as [|y l IH]; simpl; [done|].
  destruct (Numpy.less (k y) (k x)) eqn:Hlt; [|done].
  rewrite filter_cons, IH, !filter_cons.
  destruct (decide (P y)) as [Hy|]; [|done].
  destruct (decide (P x)) as [Hx|]; [|done].
  apply less_spec in Hlt. rewrite (HP y x) in Hlt by done.
  by apply Qclt_not_eq in Hlt.
Qed.

Lemma filter_sort_stable (P : A → Prop) `{∀ x, Decision (P x)} l :
  (∀ y z, P y → P z → k y = k z) →
  filter P (sort_stable k l) = filter P l.
Proof.
  intros HP. induction l as [|x l IH]; [done|].
  change (sort_stable k (x :: l)) with (insert_sorted k x (sort_stable k l)).
  rewrite filter_insert_sorted, !filter_cons by done.
  by rewrite IH.
Qed.

Lemma insert_sorted_sorted x l :
  StronglySorted (λ y z, k y ≤ k z) l →
  StronglySorted (λ y z, k y ≤ k z) (insert_sorted k x l).
Proof.
  induction 1 as [|y l Hs IH Hy]; simpl.
  { repeat constructor. }
  destruct (Numpy.less (k y) (k x)) eqn:Hlt.
  - constructor; [done|].
    rewrite insert_sorted_perm. constructor; [|done].
    apply less_spec in Hlt. by apply Qclt_le_weak.
  - apply less_false in Hlt.
    constructor; [by constructor|].
    constructor; [done|].
    eapply Forall_impl; [done|]. intros z Hz. simpl in Hz.
    by eapply Qcle_trans.
Qed.

Lemma sort_stable_sorted l : StronglySorted (λ y z, k y ≤ k z) (sort_stable k l).
Proof.
  induction l as [|x l IH]; [constructor|].
  change (sort_stable k (x :: l)) with (insert_sorted k x (sort_stable k l)).
  by apply insert_sorted_sorted.
Qed.
End sort_stable.

Lemma insert_sorted_fmap {A B : Type} (f : A → B) (kA : A → Qc) (kB : B → Qc) x l :
  (∀ y, kB (f y) = kA y) →
  f <$> Pandas.insert_sorted kA x l = Pandas.insert_sorted kB (f x) (f <$> l).
Proof.
  intros Hk. induction l as [|y l IH]; csimpl; [done|].
  rewrite !Hk. case_match; csimpl; [|done]. by rewrite IH.
Qed.

Lemma foldl_insert_sorted_fmap {A B : Type} (f : A → B) (kA : A → Qc) (kB : B → Qc) l :
  (∀ y, kB (f y) = kA y) → ∀ acc,
  f <$> foldl (λ acc x, Pandas.insert_sorted kA x acc) acc l
  = foldl (λ acc x, Pandas.insert_sorted kB x acc) (f <$> acc) (f <$> l).
Proof.
  intros Hk. induction l as [|x l IH]; intros acc; csimpl; [done|].
  rewrite IH. f_equal. by apply insert_sorted_fmap.
Qed.

(** * numpy's insertion sort on a short array *)

Section small_arrays.
Import Numpy.
Implicit Types (v : list Qc) (a rp rest : list nat).

Lemma INTP_SWAP_cons x a p q : INTP_SWAP (x :: a) (S p) (S q) = x :: INTP_SWAP a p q.
Proof.
  unfold INTP_SWAP. simpl.
  destruct (a !! p); [|done]. by destruct (a !! q).
Qed.

Lemma INTP_SWAP_neighbours l1 x y l2 :
  INTP_SWAP (l1 ++ y :: x :: l2) (S (length l1)) (length l1) = l1 ++ x :: y :: l2.
Proof.
  induction l1 as [|z l1 IH]; [done|].
  simpl. by rewrite INTP_SWAP_cons, IH.
Qed.

Lemma sink_insert_sorted v rp : ∀ x rest fuel,
  (length rp ≤ fuel)%nat →
  sink v (reverse rp ++ x :: rest) 0 (length rp) fuel
  = reverse (Pandas.insert_sorted (λ i, - key v i) x rp) ++ rest.
Proof.
  induction rp as [|y rp IH]; intros x rest fuel Hfuel.
  { destruct fuel; done. }
  destruct fuel as [|fuel]; [simpl in Hfuel; lia|].
  simpl in Hfuel. cbn [sink length Pandas.insert_sorted].
  rewrite less_opp.
  assert (deref (reverse (y :: rp) ++ x :: rest) (S (length rp)) = x) as ->.
  { unfold deref. rewrite reverse_cons, <-app_assoc. simpl.
    rewrite lookup_app_r by (rewrite length_reverse; lia).
    rewrite length_reverse.
    by replace (S (length rp) - length rp)%nat with 1%nat by lia. }
  assert (deref (reverse (y :: rp) ++ x :: rest) (S (length rp) - 1) = y) as ->.
  { unfold deref. rewrite reverse_cons, <-app_assoc. simpl.
    rewrite lookup_app_r by (rewrite length_reverse; lia).
    rewrite length_reverse.
    by replace (length rp - 0 - length rp)%nat with 0%nat by lia. }
  rewrite bool_decide_true by lia. simpl.
  destruct (less (key v x) (key v y)) eqn:Hlt.
  - rewrite reverse_cons, <-app_assoc. simpl.
    replace (length rp - 0)%nat with (length rp) by lia.
    rewrite <-(length_reverse rp) at 1 2.
    rewrite INTP_SWAP_neighbours.
    rewrite IH by lia. by rewrite reverse_cons, <-app_assoc.
  - rewrite !reverse_cons, <-!app_assoc. done.
Qed.

Lemma insertion_foldl v : ∀ rest rp,
  insertion v (reverse rp ++ rest) 0 (length rp) (length rest)
  = reverse (foldl (λ acc x, Pandas.insert_sorted (λ i, - key v i) x acc) rp rest).
Proof.
  induction rest as [|x rest IH]; intros rp; simpl.
  { by rewrite app_nil_r. }
  rewrite sink_insert_sorted.
  2:{ rewrite length_app, length_reverse. lia. }
  rewrite <-(length_insert_sorted (λ i, - key v i) x rp).
  apply IH.
Qed.

Lemma insertion_sort_foldl v a :
  insertion_sort v a 0 (length a - 1)
  = reverse (foldl (λ acc x, Pandas.insert_sorted (λ i, - key v i) x acc) [] a).
Proof.
  unfold insertion_sort. destruct a as [|x rest]; [done|].
  simpl. replace (length rest - 0 - 0)%nat with (length rest) by lia.
  apply (insertion_foldl v rest [x]).
Qed.

Lemma aquicksort_small v a :
  (length a ≤ 17)%nat → aquicksort v a = insertion_sort v a 0 (length a - 1).
Proof.
  intros Hlen. unfold aquicksort.
  replace (4 * length a + 4)%nat with (S (S (4 * length a + 2))) by lia.
  cbn [aquicksort_loop].
  rewrite bool_decide_false by lia.
  rewrite bool_decide_false; [done|].
  unfold SMALL_QUICKSORT. lia.
Qed.

(** up to 17 keys, [argsort] is the stable sort *)
Lemma argsort_small v :
  (length v ≤ 17)%nat →
  argsort v
  = reverse (foldl (λ acc x, Pandas.insert_sorted (λ i, - key v i) x acc) []
               (seq 0 (length v))).
Proof.
  intros Hlen. unfold argsort.
  rewrite aquicksort_small by (by rewrite length_seq).
  apply insertion_sort_foldl.
Qed.
End small_arrays.

(** * [drop_duplicates] keeps the first row of each key *)

Section drop_duplicates.
Context {A K : Type} `{EqDecision K} (key : A → K).
Implicit Types (l : list A) (seen : list K).
Import Pandas.

Lemma elem_of_drop_duplicates_from l : ∀ seen x,
  x ∈ drop_duplicates_from key seen l
  ↔ (key x ∉ seen) ∧ head (filter (λ y, key y = key x) l) = Some x.
Proof.
  induction l as [|r l IH]; intros seen x; simpl.
  { split; [by intros ?%elem_of_nil|by intros [_ ?]]. }
  rewrite filter_cons. case_bool_decide as Hseen.
  - rewrite IH. destruct (decide (key r = key x)) as [Heq|Hne]; [|done].
    rewrite Heq in Hseen. tauto.
  - rewrite elem_of_cons, IH, not_elem_of_cons.
    destruct (decide (key r = key x)) as [Heq|Hne]; simpl.
    + rewrite <-Heq. split.
      * intros [->|[[? _] _]]; [done|congruence].
      * intros [_ [= ->]]. by left.
    + split.
      * intros [->|[[_ ?] ?]]; [congruence|done].
      * intros [? ?]. right. split_and!; [congruence|done..].
Qed.

Lemma NoDup_drop_duplicates_from l : ∀ seen,
  NoDup (key <$> drop_duplicates_from key seen l).
Proof.
  induction l as [|r l IH]; intros seen; simpl; [constructor|].
  case_bool_decide; [apply IH|].
  csimpl. constructor; [|apply IH].
  intros (y & Hy & Hin)%list_elem_of_fmap.
  apply elem_of_drop_duplicates_from in Hin as [Hseen _].
  apply Hseen. rewrite Hy. by left.
Qed.

Lemma elem_of_drop_duplicates l x :
  x ∈ drop_duplicates key l ↔ head (filter (λ y, key y = key x) l) = Some x.
Proof.
  unfold drop_duplicates. rewrite elem_of_drop_duplicates_from.
  split; [by intros [_ ?]|]. intros ?. split; [|done]. by intros ?%elem_of_nil.
Qed.

Lemma NoDup_drop_duplicates l : NoDup (key <$> drop_duplicates key l).
Proof. apply NoDup_drop_duplicates_from. Qed.

Lemma drop_duplicates_keys l : key <$> drop_duplicates key l ≡ₚ remove_dups (key <$> l).
Proof.
  apply NoDup_Permutation.
  - apply NoDup_drop_duplicates.
  - apply NoDup_remove_dups.
  - intros k. rewrite elem_of_remove_dups, !list_elem_of_fmap. split.
    + intros (x & -> & Hx). exists x. split; [done|].
      apply elem_of_drop_duplicates in Hx.
      apply head_Some_elem_of in Hx. by apply list_elem_of_filter in Hx as [_ ?].
    + intros (x & -> & Hx).
      destruct (head (filter (λ y, key y = key x) l)) as [x0|] eqn:Hhead.
      * exists x0. pose proof Hhead as Hin.
        apply head_Some_elem_of, list_elem_of_filter in Hin as [Hk _].
        split; [done|]. apply elem_of_drop_duplicates. by rewrite Hk.
      * apply head_None in Hhead.
        assert (x ∈ filter (λ y, key y = key x) l) as Hin
          by (by apply list_elem_of_filter).
        rewrite Hhead in Hin. by apply elem_of_nil in Hin.
Qed.
End drop_duplicates.

(** * List plumbing *)

Lemma filter_fmap {A B : Type} (f : A → B) (P : B → Prop) `{∀ y, Decision (P y)}
    (l : list A) :
  filter P (f <$> l) = f <$> filter (λ x, P (f x)) l.
Proof.
  induction l as [|x l IH]; [done|].
  csimpl. rewrite !filter_cons, IH. by destruct (decide (P (f x))).
Qed.

Lemma filter_fmap_iff {A B : Type} (f : A → B) (P : B → Prop) (Q : A → Prop)
    `{∀ y, Decision (P y)} `{∀ x, Decision (Q x)} (l : list A) :
  (∀ x, Q x ↔ P (f x)) → filter P (f <$> l) = f <$> filter Q l.
Proof.
  intros HPQ. rewrite filter_fmap. f_equal. apply list_filter_iff.
  intros x. by rewrite HPQ.
Qed.

Lemma filter_bind {A B : Type} (f : A → list B) (P : B → Prop) `{∀ y, Decision (P y)}
    (l : list A) :
  filter P (l ≫= f) = l ≫= (λ x, filter P (f x)).
Proof.
  induction l as [|x l IH]; [done|].
  csimpl. by rewrite filter_app, IH.
Qed.

Lemma fmap_bind_list {A B C : Type} (f : A → list B) (g : B → C) (l : list A) :
  g <$> (l ≫= f) = l ≫= (λ x, g <$> f x).
Proof.
  induction l as [|x l IH]; [done|].
  csimpl. by rewrite fmap_app, IH.
Qed.

Lemma bind_filter_list {A B : Type} (f : A → list B) (P : A → Prop)
    `{∀ x, Decision (P x)} (l : list A) :
  filter P l ≫= f = l ≫= (λ x, if decide (P x) then f x else []).
Proof.
  induction l as [|x l IH]; [done|].
  rewrite filter_cons. csimpl. destruct (decide (P x)); csimpl; by rewrite IH.
Qed.

Lemma bind_ext_in {A B : Type} (f g : A → list B) (l : list A) :
  (∀ x, x ∈ l → f x = g x) → l ≫= f = l ≫= g.
Proof.
  intros H. apply Forall_bind_ext, Forall_forall. done.
Qed.

Lemma length_bind_singletons {A B : Type} (f : A → list B) (l : list A) :
  (∀ x, x ∈ l → length (f x) = 1%nat) → length (l ≫= f) = length l.
Proof.
  induction l as [|x l IH]; intros H; [done|].
  csimpl. rewrite length_app, H, IH; [done| |by left].
  intros y Hy. apply H. by right.
Qed.

Lemma filter_none {A : Type} (P : A → Prop) `{∀ x, Decision (P x)} (l : list A) :
  (∀ x, x ∈ l → ¬ P x) → filter P l = [].
Proof.
  induction l as [|x l IH]; intros Hl; [done|].
  rewrite filter_cons_False by (apply Hl; by left).
  apply IH. intros y Hy. apply Hl. by right.
Qed.

Lemma filter_all {A : Type} (P : A → Prop) `{∀ x, Decision (P x)} (l : list A) :
  (∀ x, x ∈ l → P x) → filter P l = l.
Proof.
  induction l as [|x l IH]; intros Hl; [done|].
  rewrite filter_cons_True by (apply Hl; by left).
  f_equal. apply IH. intros y Hy. apply Hl. by right.
Qed.

Lemma filter_unique_key {A K : Type} `{EqDecision K} (key : A → K) (Q : A → Prop)
    `{∀ x, Decision (Q x)} (k : K) (l : list A) :
  NoDup (key <$> l) → (length (filter (λ x, key x = k ∧ Q x) l) ≤ 1)%nat.
Proof.
  induction l as [|x l IH]; csimpl; intros Hnd; [lia|].
  apply NoDup_cons in Hnd as [Hx Hnd].
  rewrite filter_cons. destruct (decide (key x = k ∧ Q x)) as [[Hk _]|]; [|by apply IH].
  assert (filter (λ x, key x = k ∧ Q x) l = []) as ->; [|simpl; lia].
  apply filter_none. intros y Hy [Hky _].
  apply Hx, list_elem_of_fmap. exists y. split; [congruence|done].
Qed.

(** * The rank column *)

Lemma insert_Rank_Rank df : Rank <$> insert_Rank df = seq 1 (length df).
Proof.
  unfold insert_Rank. apply fmap_zip_with_l; [done|]. by rewrite length_seq.
Qed.

Lemma insert_Rank_candidate df : candidate <$> insert_Rank df = df.
Proof.
  unfold insert_Rank. apply fmap_zip_with_r; [done|]. by rewrite length_seq.
Qed.

Lemma length_insert_Rank df : length (insert_Rank df) = length df.
Proof. by rewrite <-(length_fmap candidate), insert_Rank_candidate. Qed.

Lemma buildRankedCandidates_perm rows directory :
  candidate <$> buildRankedCandidates rows directory ≡ₚ candidates rows directory.
Proof.
  unfold buildRankedCandidates. rewrite insert_Rank_candidate. apply sort_values_perm.
Qed.

(** * The ranked frame, column by column *)

Section ranked_frame.
Implicit Types (rows : list ScoredRow) (directory : list DirectoryEntry).

Lemma first_row_columns rows e :
  head (filter (λ y, e_employee_id y = e) (employee_columns <$> rows))
  = employee_columns <$> first_row rows e.
Proof.
  unfold first_row. rewrite (filter_fmap employee_columns). simpl.
  by destruct (filter _ rows).
Qed.

Lemma df_ranked_columns rows directory :
  (λ r, (base r, fullname r)) <$> df_ranked rows directory
  = filter (λ p, p.2 ≠ Some "")
      (filter (λ p, p.2 ≠ None)
         (merge_fullname
            (Pandas.drop_duplicates e_employee_id (employee_columns <$> rows)) directory)).
Proof.
  unfold df_ranked, merge_top_tgv.
  case_bool_decide; rewrite <-list_fmap_compose;
    (etrans; [|apply list_fmap_id]); apply list_fmap_ext; by intros ? [??].
Qed.

Lemma merged_named directory (r : EmployeeRow) :
  filter (λ p : EmployeeRow * option string, p.2 ≠ Some "")
    (filter (λ p : EmployeeRow * option string, p.2 ≠ None)
       match filter (λ d, dir_employee_id d = e_employee_id r) directory with
       | [] => [(r, None)]
       | matches => (λ d, (r, dir_fullname d)) <$> matches
       end)
  = (λ d, (r, dir_fullname d)) <$> named_entries directory (e_employee_id r).
Proof.
  unfold named_entries.
  destruct (filter (λ d, dir_employee_id d = e_employee_id r) directory)
    as [|d0 ms] eqn:Hms.
  - rewrite filter_cons_False by (simpl; tauto). rewrite filter_nil.
    rewrite (filter_none _ directory); [reflexivity|]. intros d Hd [Hid _].
    assert (d ∈ filter (λ d, dir_employee_id d = e_employee_id r) directory) as Hin
      by (by apply list_elem_of_filter).
    rewrite Hms in Hin. by apply elem_of_nil in Hin.
  - rewrite <-Hms.
    rewrite (filter_fmap (λ d, (r, dir_fullname d))).
    rewrite (filter_fmap (λ d, (r, dir_fullname d))). simpl.
    f_equal. rewrite !list_filter_filter. apply list_filter_iff. tauto.
Qed.

(** the (employee_id, fullname) columns of the candidates, before sorting *)
Lemma candidates_listing rows directory :
  (λ r, (e_employee_id (base r), fullname r)) <$> candidates rows directory
  = Pandas.drop_duplicates e_employee_id (employee_columns <$> rows) ≫=
      (λ r, if decide (e_is_benchmark r = false)
            then listing directory (e_employee_id r) else []).
Proof.
  unfold candidates.
  change (λ r, (e_employee_id (base r), fullname r))
    with ((λ p : EmployeeRow * option string, (e_employee_id p.1, p.2))
          ∘ (λ r, (base r, fullname r))).
  rewrite list_fmap_compose.
  trans ((λ p : EmployeeRow * option string, (e_employee_id p.1, p.2)) <$>
         filter (λ p : EmployeeRow * option string, e_is_benchmark p.1 = false)
           ((λ r, (base r, fullname r)) <$> df_ranked rows directory)).
  { f_equal. symmetry. by apply filter_fmap_iff. }
  rewrite df_ranked_columns. unfold merge_fullname.
  rewrite !filter_bind, fmap_bind_list.
  apply bind_ext_in. intros r _.
  rewrite merged_named.
  rewrite (filter_fmap (λ d, (r, dir_fullname d))). simpl.
  destruct (decide (e_is_benchmark r = false)) as [Hb|Hb].
  - rewrite filter_all by done. by rewrite <-list_fmap_compose.
  - rewrite filter_none by done. done.
Qed.

Lemma candidates_eligible rows directory :
  (λ r, (e_employee_id (base r), fullname r)) <$> candidates rows directory
  ≡ₚ eligible_employees rows directory ≫= listing directory.
Proof.
  rewrite candidates_listing.
  set (dd := Pandas.drop_duplicates e_employee_id (employee_columns <$> rows)).
  set (G := λ e, if decide (non_benchmark rows e) then listing directory e else []).
  trans ((e_employee_id <$> dd) ≫= G).
  { apply reflexive_eq. rewrite list_fmap_bind. apply bind_ext_in.
    intros r Hr. simpl. unfold G.
    apply elem_of_drop_duplicates in Hr. rewrite first_row_columns in Hr.
    apply decide_ext. unfold non_benchmark.
    destruct (first_row rows (e_employee_id r)) as [r0|]; simplify_eq/=.
    split; congruence. }
  unfold dd. rewrite drop_duplicates_keys, <-list_fmap_compose.
  apply reflexive_eq. unfold eligible_employees. rewrite bind_filter_list.
  apply bind_ext_in. intros e _. unfold G.
  destruct (decide (non_benchmark rows e)) as [Hnb|Hnb].
  - destruct (decide (_ ∧ _)) as [|Hn]; [done|].
    unfold listing. destruct (named_entries directory e); [done|].
    exfalso. apply Hn. done.
  - rewrite decide_False; [done|tauto].
Qed.
End ranked_frame.

(** * C1: the ranks *)

Lemma fst_bind_listing directory (l : list string) :
  (∀ e, e ∈ l → length (named_entries directory e) = 1%nat) →
  fst <$> (l ≫= listing directory) = l.
Proof.
  induction l as [|e l IH]; intros Hl; [done|].
  csimpl. rewrite fmap_app, IH by (intros ??; apply Hl; by right).
  unfold listing. specialize (Hl e (list_elem_of_here _ _)).
  destruct (named_entries directory e) as [|d [|??]]; simplify_eq/=. done.
Qed.

Lemma eligible_listed_once rows directory e :
  NoDup (dir_employee_id <$> directory) →
  e ∈ eligible_employees rows directory →
  length (named_entries directory e) = 1%nat.
Proof.
  intros Hnd [[_ Hne] _]%list_elem_of_filter.
  pose proof (filter_unique_key dir_employee_id
                (λ d, dir_fullname d ≠ None ∧ dir_fullname d ≠ Some "") e directory Hnd)
    as Hle.
  unfold named_entries in *.
  destruct (filter _ directory) as [|? [|??]]; simpl in *; [done|done|lia].
Qed.

(** C1, as the code has it: a directory that lists an employee more than
    once makes the left join repeat that employee, so two ranks go to one
    employee and the number of ranks exceeds the number of distinct
    eligible employees. *)
Lemma ranks_count_distinct_employees_counterexample :
  let rows := [ scored "E1" 80 false "Competency" 90 ] in
  let directory :=
    [ mkDirectoryEntry "E1" (Some "Alice"); mkDirectoryEntry "E1" (Some "Alice") ] in
  Rank <$> buildRankedCandidates rows directory = [1; 2]%nat
  ∧ eligible_employees rows directory = ["E1"]
  ∧ Rank <$> buildRankedCandidates rows directory
    ≠ seq 1 (length (eligible_employees rows directory)).
Proof. vm_compute. split_and!; [done|done|discriminate]. Qed.

(** C1 (amended): the ranks of [buildRankedCandidates] are 1..N without
    duplicate or gap, where N counts, for each distinct employee whose
    [is_benchmark] is false, the directory entries that give it a non-empty
    fullname; every ranked employee is non-benchmark and has such an entry.
    When the directory lists each employee_id at most once, N is the number
    of distinct such employees and no employee is ranked twice. *)
Theorem ranks_contiguous rows directory :
  let out := buildRankedCandidates rows directory in
  Rank <$> out = seq 1 (length out)
  ∧ (λ c, (ranked_id c, fullname (candidate c))) <$> out
    ≡ₚ eligible_employees rows directory ≫= listing directory
  ∧ (∀ c, c ∈ out → ranked_id c ∈ eligible_employees rows directory)
  ∧ (NoDup (dir_employee_id <$> directory) →
     length out = length (eligible_employees rows directory)
     ∧ NoDup (ranked_id <$> out))
  ∧ (employee_level_consistent rows →
     ∀ c r, c ∈ out → r ∈ rows → employee_id r = ranked_id c → is_benchmark r = false).
Proof.
  intros out.
  assert ((λ c, (ranked_id c, fullname (candidate c))) <$> out
          ≡ₚ eligible_employees rows directory ≫= listing directory) as Hperm.
  { change (λ c, (ranked_id c, fullname (candidate c)))
      with ((λ r, (e_employee_id (base r), fullname r)) ∘ candidate).
    rewrite list_fmap_compose. unfold out.
    rewrite buildRankedCandidates_perm. apply candidates_eligible. }
  assert (∀ c, c ∈ out → ranked_id c ∈ eligible_employees rows directory) as Helig.
  { intros c Hc.
    assert ((ranked_id c, fullname (candidate c))
            ∈ eligible_employees rows directory ≫= listing directory) as Hin.
    { rewrite <-Hperm. apply list_elem_of_fmap. by exists c. }
    apply list_elem_of_bind in Hin as (e & Hin & He).
    unfold listing in Hin. apply list_elem_of_fmap in Hin as (d & [= -> _] & _).
    done. }
  split_and!; [|done|done| |].
  - unfold out, buildRankedCandidates.
    by rewrite insert_Rank_Rank, length_insert_Rank.
  - intros Hnd. split.
    + rewrite <-(length_fmap (λ c, (ranked_id c, fullname (candidate c)))), Hperm.
      unfold listing. apply length_bind_singletons. intros e He.
      rewrite length_fmap. by eapply eligible_listed_once.
    + change ranked_id with (fst ∘ (λ c, (ranked_id c, fullname (candidate c)))).
      rewrite list_fmap_compose, Hperm.
      rewrite fst_bind_listing by (intros ??; by eapply eligible_listed_once).
      apply NoDup_filter, NoDup_remove_dups.
  - intros Hcons c r Hc Hr Hid.
    apply Helig, list_elem_of_filter in Hc as [[Hnb _] _].
    unfold non_benchmark in Hnb.
    destruct (first_row rows (ranked_id c)) as [r0|] eqn:Hfirst; simplify_eq/=.
    apply head_Some_elem_of, list_elem_of_filter in Hfirst as [Hid0 Hr0].
    assert (employee_columns r = employee_columns r0) as Hcols
      by (apply Hcons; congruence).
    apply (f_equal e_is_benchmark) in Hcols. simpl in Hcols. congruence.
Qed.

Lemma ranks_contiguous_witness :
  length (buildRankedCandidates rows_basic directory_basic)
  = length (eligible_employees rows_basic directory_basic)
  ∧ ∀ c r, c ∈ buildRankedCandidates rows_basic directory_basic →
      r ∈ rows_basic → employee_id r = ranked_id c → is_benchmark r = false.
Proof.
  destruct (ranks_contiguous rows_basic directory_basic) as (_ & _ & _ & Hnd & Hcons).
  split.
  - apply Hnd. apply (bool_decide_unpack _). vm_compute. exact I.
  - apply Hcons. intros r r' Hr Hr' Hid.
    unfold rows_basic in Hr, Hr'.
    repeat (apply elem_of_cons in Hr as [->|Hr]);
    repeat (apply elem_of_cons in Hr' as [->|Hr']);
    try (by apply elem_of_nil in Hr); try (by apply elem_of_nil in Hr');
    try done; by vm_compute in Hid.
Defined.

(** * C2: ties *)

Lemma StronglySorted_opp {A : Type} (k : A → Qc) (l : list A) :
  StronglySorted (λ y z, - k y ≤ - k z) l → StronglySorted (λ y z, k z ≤ k y) l.
Proof.
  induction 1 as [|x l Hs IH Hx]; constructor; [done|].
  eapply Forall_impl; [done|]. intros y Hy. by apply Qcopp_le_iff.
Qed.


Lemma StronglySorted_reverse {A : Type} (R : A → A → Prop) (l : list A) :
  StronglySorted R l → StronglySorted (flip R) (reverse l).
Proof.
  induction 1 as [|x l Hs IH Hx]; [constructor|].
  rewrite reverse_cons. apply StronglySorted_app. split_and!.
  - intros y z Hy ->%list_elem_of_singleton. unfold flip.
    rewrite Forall_forall in Hx. by apply Hx, elem_of_reverse.
  - done.
  - repeat constructor.
Qed.





(** the program's call is the instance at the portable kernel *)
Lemma buildRankedCandidates_kind_quicksort rows directory :
  buildRankedCandidates rows directory
  = buildRankedCandidates_kind Numpy.argsort rows directory.
Proof. reflexivity. Qed.




(** * [idxmax] and [idxmin] *)

Section idx_best.
Variable lt : Qc → Qc → Prop.
Context `{∀ x y, Decision (lt x y)}.
Hypothesis lt_asym : ∀ a b, lt a b → ¬ lt b a.
Hypothesis le_lt_trans : ∀ a b c, ¬ lt b a → lt b c → lt a c.

Lemma idx_best_spec s : ∀ pre best,
  match best with
  | None => Forall (λ x, x = None) pre
  | Some (p, b) => first_best lt pre p b
  end →
  match Pandas.idx_best (λ y b, bool_decide (lt b y)) s (length pre) best with
  | None => Forall (λ x, x = None) (pre ++ s)
  | Some i => ∃ y, first_best lt (pre ++ s) i y
  end.
Proof.
  induction s as [|x s IH]; intros pre best Hbest.
  { simpl. rewrite app_nil_r. destruct best as [[p b]|]; simpl; eauto. }
  replace (pre ++ x :: s) with ((pre ++ [x]) ++ s) by (by rewrite <-app_assoc).
  cbn [Pandas.idx_best].
  replace (S (length pre)) with (length (pre ++ [x]))
    by (rewrite length_app; simpl; lia).
  apply IH. destruct x as [y|].
  - destruct best as [[p b]|].
    + destruct Hbest as [Hp Hall]. case_bool_decide as Hlt.
      * split; [by rewrite list_lookup_middle|].
        intros j y' Hj. apply lookup_app_Some in Hj as [Hj|[Hge Hj]].
        -- pose proof (lookup_lt_Some _ _ _ Hj).
           destruct (Hall j y' Hj) as [Hnlt _].
           assert (lt y' y) by eauto. split; eauto.
        -- destruct (j - length pre)%nat eqn:Hd; simplify_eq/=.
           split; [intros Hyy; by apply (lt_asym _ _ Hyy)|lia].
      * split; [by apply lookup_app_l_Some|].
        intros j y' Hj. apply lookup_app_Some in Hj as [Hj|[Hge Hj]]; [eauto|].
        destruct (j - length pre)%nat eqn:Hd; simplify_eq/=.
        pose proof (lookup_lt_Some _ _ _ Hp). split; [done|lia].
    + split; [by rewrite list_lookup_middle|].
      intros j y' Hj. apply lookup_app_Some in Hj as [Hj|[Hge Hj]].
      * apply list_elem_of_lookup_2 in Hj.
        rewrite Forall_forall in Hbest. by apply Hbest in Hj.
      * destruct (j - length pre)%nat eqn:Hd; simplify_eq/=.
        split; [intros Hyy; by apply (lt_asym _ _ Hyy)|lia].
  - destruct best as [[p b]|].
    + destruct Hbest as [Hp Hall]. split; [by apply lookup_app_l_Some|].
      intros j y' Hj. apply lookup_app_Some in Hj as [Hj|[Hge Hj]]; [eauto|].
      destruct (j - length pre)%nat eqn:Hd; simplify_eq/=.
    + apply Forall_app. split; [done|]. by repeat constructor.
Qed.
End idx_best.

Lemma idxmax_spec s :
  match Pandas.idxmax s with
  | None => Forall (λ x, x = None) s
  | Some i =>
      ∃ y, s !! i = Some (Some y)
           ∧ ∀ j y', s !! j = Some (Some y') → y' ≤ y ∧ ((j < i)%nat → y' < y)
  end.
Proof.
  pose proof (idx_best_spec Qclt) as Hspec.
  specialize (Hspec (λ a b Hab Hba, Qclt_not_le _ _ Hab (Qclt_le_weak _ _ Hba))).
  specialize (Hspec (λ a b c Hba Hbc, Qcle_lt_trans _ _ _ (Qcnot_lt_le _ _ Hba) Hbc)).
  specialize (Hspec s [] None (Forall_nil_2 _)). simpl in Hspec.
  unfold Pandas.idxmax. destruct (Pandas.idx_best _ s 0 None) as [i|]; [|done].
  destruct Hspec as (y & Hy & Hall). exists y. split; [done|].
  intros j y' Hj. destruct (Hall j y' Hj) as [Hn Hlt].
  split; [by apply Qcnot_lt_le|done].
Qed.

Lemma idxmin_spec s :
  match Pandas.idxmin s with
  | None => Forall (λ x, x = None) s
  | Some i =>
      ∃ y, s !! i = Some (Some y)
           ∧ ∀ j y', s !! j = Some (Some y') → y ≤ y' ∧ ((j < i)%nat → y < y')
  end.
Proof.
  pose proof (idx_best_spec (λ a b, b < a) (H := λ x y, decide (y < x))) as Hspec.
  specialize (Hspec (λ a b Hab Hba, Qclt_not_le _ _ Hab (Qclt_le_weak _ _ Hba))).
  specialize (Hspec (λ a b c Hba Hbc, Qclt_le_trans _ _ _ Hbc (Qcnot_lt_le _ _ Hba))).
  specialize (Hspec s [] None (Forall_nil_2 _)). simpl in Hspec.
  unfold Pandas.idxmin. destruct (Pandas.idx_best _ s 0 None) as [i|]; [|done].
  destruct Hspec as (y & Hy & Hall). exists y. split; [done|].
  intros j y' Hj. destruct (Hall j y' Hj) as [Hn Hlt].
  split; [by apply Qcnot_lt_le|done].
Qed.

(** * The top domain of an employee *)

Section top_domain.
Implicit Types (t : string * string * Qc) (l u pre : list (string * string * Qc)).





Lemma first_max_from_Some t0 l : is_Some (first_max_from (Some t0) l).
Proof.
  revert t0. induction l as [|t l IH]; intros t0; simpl; [by eexists|].
  case_bool_decide; apply IH.
Qed.



End top_domain.


(** * C3: the top domain *)







(** * C6: the comparison vector *)

Lemma insert_key_perm k ks : Pandas.insert_key k ks ≡ₚ k :: ks.
Proof.
  induction ks as [|k' ks IH]; simpl; [done|].
  case_match; [done|]. rewrite IH. apply Permutation_swap.
Qed.

Lemma group_keys_perm ks : Pandas.group_keys ks ≡ₚ remove_dups ks.
Proof.
  unfold Pandas.group_keys. induction (remove_dups ks) as [|k l IH]; simpl; [done|].
  by rewrite insert_key_perm, IH.
Qed.

Lemma elem_of_group_keys k ks : k ∈ Pandas.group_keys ks ↔ k ∈ ks.
Proof. by rewrite group_keys_perm, elem_of_remove_dups. Qed.

Lemma head_filter_keyed {V : Type} (F : string → V) (d : string) (ks : list string) :
  head (filter (λ p : string * V, p.1 = d) ((λ k, (k, F k)) <$> ks))
  = if decide (d ∈ ks) then Some (d, F d) else None.
Proof.
  induction ks as [|k ks IH]; [done|].
  csimpl. rewrite filter_cons. simpl. destruct (decide (k = d)) as [->|Hne].
  - simpl. by rewrite decide_True by (by left).
  - rewrite IH. apply decide_ext. rewrite elem_of_cons. split; [by right|by intros [?|?]].
Qed.

Lemma series_get_groupby_mean {A : Type} (key : A → string) (col : A → Qc)
    (df : list A) (d : string) :
  Pandas.series_get (Pandas.groupby_mean key col df) d
  = match filter (λ r, key r = d) df with
    | [] => None
    | ts => Some (Pandas.mean (col <$> ts))
    end.
Proof.
  unfold Pandas.series_get, Pandas.groupby_mean.
  rewrite (head_filter_keyed (λ k, Pandas.mean (col <$> filter (λ r, key r = k) df))).
  destruct (decide (d ∈ _)) as [Hin|Hnin].
  - apply elem_of_group_keys, list_elem_of_fmap in Hin as (r & -> & Hr).
    simpl. destruct (filter _ df) eqn:Hf; [|done].
    assert (r ∈ filter (λ r0, key r0 = key r) df) as Hrf by (by apply list_elem_of_filter).
    rewrite Hf in Hrf. by apply elem_of_nil in Hrf.
  - simpl. destruct (filter _ df) as [|r ?] eqn:Hf; [done|].
    exfalso. apply Hnin, elem_of_group_keys, list_elem_of_fmap.
    assert (r ∈ filter (λ r0, key r0 = d) df) as Hrf by (rewrite Hf; by left).
    apply list_elem_of_filter in Hrf as [<- ?]. by exists r.
Qed.

Lemma fillna_tgv_avg data (d : string) :
  Some (default 0 (Pandas.series_get (tgv_avg data) d)) = Some (domain_value data d).
Proof.
  unfold tgv_avg, domain_value. rewrite series_get_groupby_mean.
  by destruct (filter _ (df_unique_tgv data)).
Qed.

Lemma buildComparisonVector_fmap rows cid doms :
  buildComparisonVector rows cid doms
  = (λ d, mkRadarRow d
            (Some (domain_value (filter (λ r, is_benchmark r = true) rows) d))
            (Some (domain_value (filter (λ r, employee_id r = cid) rows) d)))
      <$> doms.
Proof.
  unfold buildComparisonVector, Pandas.fillna, Pandas.map_series.
  induction doms as [|d doms IH]; [done|].
  csimpl. rewrite IH. by rewrite !fillna_tgv_avg.
Qed.

Lemma domain_value_absent data (d : string) :
  d ∉ tgv_name <$> data → domain_value data d = 0.
Proof.
  intros Hd. unfold domain_value.
  rewrite filter_none; [done|]. intros t Ht Htd. apply Hd.
  unfold df_unique_tgv in Ht. apply elem_of_drop_duplicates in Ht.
  apply head_Some_elem_of, list_elem_of_filter in Ht as [_ Ht].
  apply list_elem_of_fmap in Ht as (r & -> & Hr).
  apply list_elem_of_fmap. by exists r.
Qed.

(** C6: for every row set, candidate id and domain list,
    [buildComparisonVector] returns one entry per canonical domain, in the
    canonical order, each with a numeric benchmark average and candidate
    value: the mean of the de-duplicated rates of the domain in the
    benchmark rows (in the candidate's rows), and 0 for a domain that these
    rows do not have. *)
Theorem comparison_vector_aligned rows cid canonicalDomains :
  let out := buildComparisonVector rows cid canonicalDomains in
  let benchmark_data := filter (λ r, is_benchmark r = true) rows in
  let candidate_data := filter (λ r, employee_id r = cid) rows in
  length out = length canonicalDomains
  ∧ radar_tgv_name <$> out = canonicalDomains
  ∧ Forall numeric out
  ∧ ∀ i d row, canonicalDomains !! i = Some d → out !! i = Some row →
      radar_tgv_name row = d
      ∧ Benchmark_Avg row = Some (domain_value benchmark_data d)
      ∧ Candidate row = Some (domain_value candidate_data d)
      ∧ (d ∉ tgv_name <$> benchmark_data → Benchmark_Avg row = Some 0)
      ∧ (d ∉ tgv_name <$> candidate_data → Candidate row = Some 0).
Proof.
  intros out benchmark_data candidate_data. unfold out.
  rewrite buildComparisonVector_fmap. fold benchmark_data candidate_data.
  split_and!.
  - by rewrite length_fmap.
  - rewrite <-list_fmap_compose. apply list_fmap_id.
  - apply Forall_fmap, Forall_forall. intros d _. split; by eexists.
  - intros i d row Hd Hrow. rewrite list_lookup_fmap, Hd in Hrow.
    simplify_eq/=. split_and!; [done..| |]; intros Habs;
      by rewrite domain_value_absent.
Qed.

Lemma comparison_vector_aligned_witness :
  ∃ row, buildComparisonVector rows_basic "E1" default_tgvs !! 1%nat = Some row
         ∧ Benchmark_Avg row = Some 0 ∧ Candidate row = Some 0.
Proof.
  destruct (comparison_vector_aligned rows_basic "E1" default_tgvs)
    as (_ & _ & _ & H).
  destruct (buildComparisonVector rows_basic "E1" default_tgvs !! 1%nat)
    as [row|] eqn:Hrow; [|by vm_compute in Hrow].
  destruct (H 1%nat "Psychometric (Cognitive)" row eq_refl Hrow)
    as (_ & _ & _ & Hb & Hc).
  exists row. split_and!; [done| |].
  - apply Hb. apply (bool_decide_unpack _). vm_compute. exact I.
  - apply Hc. apply (bool_decide_unpack _). vm_compute. exact I.
Defined.

(** * [nlargest] on a series without NaN *)

Lemma sort_stable_fmap {A B : Type} (f : A → B) (kA : A → Qc) (kB : B → Qc) l :
  (∀ y, kB (f y) = kA y) →
  f <$> Pandas.sort_stable kA l = Pandas.sort_stable kB (f <$> l).
Proof.
  intros Hk. induction l as [|x l IH]; [done|].
  change (Pandas.sort_stable kA (x :: l))
    with (Pandas.insert_sorted kA x (Pandas.sort_stable kA l)).
  rewrite (insert_sorted_fmap f kA kB) by done. by rewrite IH.
Qed.

Lemma take_rows_valid {A : Type} (indexer : list nat) (df : list A) :
  Forall (λ i, i < length df)%nat indexer →
  Some <$> Pandas.take_rows indexer df = (λ i, df !! i) <$> indexer.
Proof.
  unfold Pandas.take_rows. induction 1 as [|i l Hi _ IH]; [done|].
  csimpl. destruct (lookup_lt_is_Some_2 df i Hi) as [x Hx].
  rewrite Hx. csimpl. by rewrite IH.
Qed.

Lemma take_rows_take {A : Type} (n : nat) (indexer : list nat) (df : list A) :
  Forall (λ i, i < length df)%nat indexer →
  Pandas.take_rows (take n indexer) df = take n (Pandas.take_rows indexer df).
Proof.
  intros Hvalid. apply (inj (fmap Some)).
  rewrite fmap_take, !take_rows_valid, ?fmap_take; [done..|].
  by apply Forall_take.
Qed.

Lemma take_rows_of_seq (indexer : list nat) (n : nat) :
  Forall (λ i, i < n)%nat indexer → Pandas.take_rows indexer (seq 0 n) = indexer.
Proof.
  unfold Pandas.take_rows. induction 1 as [|i l Hi _ IH]; [done|].
  csimpl. rewrite lookup_seq_lt by done. csimpl. by rewrite IH.
Qed.

Lemma argsort_stable_valid (v : list Qc) :
  Forall (λ i, i < length v)%nat (Pandas.argsort_stable v).
Proof.
  unfold Pandas.argsort_stable. rewrite sort_stable_perm.
  apply Forall_forall. intros i Hi. by apply elem_of_seq in Hi as [_ ?].
Qed.

Section numeric_radar.
Variable radar : list RadarRow.
Hypothesis radar_numeric : Forall numeric radar.

Lemma Candidate_numeric : Candidate <$> radar = (λ r, Some (candidate_value r)) <$> radar.
Proof.
  apply Forall_fmap_ext_1. eapply Forall_impl; [done|].
  intros r [_ [y Hy]]. unfold candidate_value. by rewrite Hy.
Qed.

Lemma Benchmark_Avg_numeric :
  Benchmark_Avg <$> radar = (λ r, Some (benchmark_value r)) <$> radar.
Proof.
  apply Forall_fmap_ext_1. eapply Forall_impl; [done|].
  intros r [[y Hy] _]. unfold benchmark_value. by rewrite Hy.
Qed.


Lemma nlargest_numeric n :
  Pandas.nlargest n (Candidate <$> radar)
  = take n (Pandas.argsort_stable ((λ r, - candidate_value r) <$> radar)).
Proof.
  unfold Pandas.nlargest, Pandas.positions_where.
  rewrite Candidate_numeric, length_fmap.
  set (s := (λ r, Some (candidate_value r)) <$> radar).
  assert (∀ i, i ∈ seq 0 (length radar) → ∃ y, s !! i = Some (Some y)) as Hs.
  { intros i Hi. apply elem_of_seq in Hi as [_ Hi]. simpl in Hi.
    destruct (lookup_lt_is_Some_2 radar i Hi) as [r Hr].
    exists (candidate_value r). unfold s. by rewrite list_lookup_fmap, Hr. }
  assert (filter (λ i, from_option (λ x : option Qc, bool_decide (x = None)) false (s !! i))
            (seq 0 (length radar)) = []) as ->.
  { apply filter_none. intros i Hi. destruct (Hs i Hi) as [y ->]. simpl. tauto. }
  assert (filter (λ i, from_option (λ x : option Qc, bool_decide (is_Some x)) false (s !! i))
            (seq 0 (length radar)) = seq 0 (length radar)) as ->.
  { apply filter_all. intros i Hi. destruct (Hs i Hi) as [y ->]. simpl.
    first [done | by apply bool_decide_pack; eexists]. }
  unfold s.
  rewrite app_nil_r, take_idemp.
  assert ((λ i, - default 0 (mjoin (((λ r, Some (candidate_value r)) <$> radar) !! i)))
            <$> seq 0 (length radar)
          = (λ r, - candidate_value r) <$> radar) as ->.
  { trans ((λ o : option RadarRow, - default 0 (candidate_value <$> o))
           <$> ((λ i, radar !! i) <$> seq 0 (length radar))).
    { rewrite <-list_fmap_compose. apply list_fmap_ext. intros _ i _. simpl.
      rewrite list_lookup_fmap. by destruct (radar !! i). }
    rewrite lookup_seq_all, <-list_fmap_compose. done. }
  f_equal. apply take_rows_of_seq.
  rewrite <-(length_fmap (λ r, - candidate_value r) radar).
  apply argsort_stable_valid.
Qed.

(** the three rows with the largest candidate values, largest first *)
Lemma top_tgvs_numeric :
  top_tgvs radar = take 3 (Pandas.sort_stable (λ r, - candidate_value r) radar).
Proof.
  unfold top_tgvs. rewrite nlargest_numeric.
  pose proof (argsort_stable_valid ((λ r, - candidate_value r) <$> radar)) as Hvalid.
  rewrite length_fmap in Hvalid.
  rewrite take_rows_take by done. f_equal.
  apply (inj (fmap Some)). rewrite take_rows_valid by done.
  unfold Pandas.argsort_stable. rewrite length_fmap.
  set (ko := λ o : option RadarRow, default 0 ((λ r, - candidate_value r) <$> o)).
  rewrite (sort_stable_fmap (λ i, radar !! i) _ ko).
  2:{ intros i. unfold ko, Numpy.key. by rewrite list_lookup_fmap. }
  rewrite lookup_seq_all. symmetry. by apply sort_stable_fmap.
Qed.

Lemma diffs_with_numeric sub :
  diffs_with sub radar = (λ r, Some (diff_with sub r)) <$> radar.
Proof.
  unfold diffs_with, Pandas.series_sub_with.
  rewrite Candidate_numeric, Benchmark_Avg_numeric.
  clear radar_numeric. induction radar as [|r l IH]; [done|].
  csimpl. by rewrite IH.
Qed.

(** the strongest area and the largest gap for the subtraction [sub] of
    the number format *)
Lemma computeInsights_with_numeric sub :
  radar ≠ [] →
  ∃ i j strongest gap,
    computeInsights_with sub radar
    = Some (Summary strongest gap
              (if top_reasons radar is [] then Balanced else Strong (top_reasons radar)))
    ∧ radar !! i = Some strongest
    ∧ (∀ k r, radar !! k = Some r →
         diff_with sub r ≤ diff_with sub strongest
         ∧ ((k < i)%nat → diff_with sub r < diff_with sub strongest))
    ∧ radar !! j = Some gap
    ∧ (∀ k r, radar !! k = Some r →
         diff_with sub gap ≤ diff_with sub r
         ∧ ((k < j)%nat → diff_with sub gap < diff_with sub r)).
Proof.
  intros Hne. unfold computeInsights_with. rewrite diffs_with_numeric.
  rewrite bool_decide_true.
  2:{ destruct radar as [|r l]; [done|]. left. by eexists. }
  pose proof (idxmax_spec ((λ r, Some (diff_with sub r)) <$> radar)) as Hmax.
  pose proof (idxmin_spec ((λ r, Some (diff_with sub r)) <$> radar)) as Hmin.
  destruct (Pandas.idxmax _) as [i|].
  2:{ destruct radar; [done|]. by apply Forall_cons in Hmax as [? _]. }
  destruct (Pandas.idxmin _) as [j|].
  2:{ destruct radar; [done|]. by apply Forall_cons in Hmin as [? _]. }
  destruct Hmax as (y & Hi & Hmax), Hmin as (z & Hj & Hmin).
  rewrite list_lookup_fmap in Hi, Hj.
  destruct (radar !! i) as [s|] eqn:Hs; simplify_eq/=.
  destruct (radar !! j) as [g|] eqn:Hg; simplify_eq/=.
  exists i, j, s, g. rewrite Hs. simpl. rewrite Hg. simpl.
  split_and!; [done|done| |done|].
  - intros k r Hk. apply (Hmax k). by rewrite list_lookup_fmap, Hk.
  - intros k r Hk. apply (Hmin k). by rewrite list_lookup_fmap, Hk.
Qed.

(** the exact subtraction is one instance *)
Lemma computeInsights_numeric :
  radar ≠ [] →
  ∃ i j strongest gap,
    computeInsights radar
    = Some (Summary strongest gap
              (if top_reasons radar is [] then Balanced else Strong (top_reasons radar)))
    ∧ radar !! i = Some strongest
    ∧ (∀ k r, radar !! k = Some r →
         diff_value r ≤ diff_value strongest
         ∧ ((k < i)%nat → diff_value r < diff_value strongest))
    ∧ radar !! j = Some gap
    ∧ (∀ k r, radar !! k = Some r →
         diff_value gap ≤ diff_value r
         ∧ ((k < j)%nat → diff_value gap < diff_value r)).
Proof. exact (computeInsights_with_numeric Qcminus). Qed.
End numeric_radar.

Lemma filter_ext_in {A : Type} (P Q : A → Prop) `{∀ x, Decision (P x)}
    `{∀ x, Decision (Q x)} (l : list A) :
  (∀ x, x ∈ l → P x ↔ Q x) → filter P l = filter Q l.
Proof.
  induction l as [|x l IH]; intros Hl; [done|].
  rewrite !filter_cons, IH by (intros; apply Hl; by right).
  apply decide_ext, Hl. by left.
Qed.

(** * C7: the summary insights *)

(** C7: on a comparison vector with numeric values, [computeInsights]
    reports as strongest area the first domain (in canonical order) with
    the largest diff and as largest gap the first domain with the smallest
    diff, where the diff of a domain is what the subtraction of the number
    format returns for candidate - benchmark: the statement holds for every
    subtraction [sub], the rounding one of float64 and the exact one alike.
    The reasons are the three domains with the largest candidate values,
    kept when the candidate value is at least the benchmark average; an
    empty list of reasons gives the balanced message. *)
Theorem insights_strongest_gap_reasons (sub : Qc → Qc → Qc) radar :
  radar ≠ [] → Forall numeric radar →
  ∃ i j strongest gap,
    computeInsights_with sub radar
    = Some (Summary strongest gap
              (if top_reasons radar is [] then Balanced else Strong (top_reasons radar)))
    ∧ radar !! i = Some strongest
    ∧ (∀ k r, radar !! k = Some r →
         diff_with sub r ≤ diff_with sub strongest
         ∧ ((k < i)%nat → diff_with sub r < diff_with sub strongest))
    ∧ radar !! j = Some gap
    ∧ (∀ k r, radar !! k = Some r →
         diff_with sub gap ≤ diff_with sub r
         ∧ ((k < j)%nat → diff_with sub gap < diff_with sub r))
    ∧ top_reasons radar
      = filter (λ row, benchmark_value row ≤ candidate_value row) (top_tgvs radar)
    ∧ length (top_tgvs radar) = min 3 (length radar)
    ∧ ∃ rest, top_tgvs radar ++ rest ≡ₚ radar
        ∧ ∀ t r, t ∈ top_tgvs radar → r ∈ rest → candidate_value r ≤ candidate_value t.
Proof.
  intros Hne Hnum.
  destruct (computeInsights_with_numeric radar Hnum sub Hne)
    as (i & j & s & g & Hins & Hi & Hmax & Hj & Hmin).
  exists i, j, s, g. split_and!; [done..| | |].
  - unfold top_reasons. apply filter_ext_in. intros row Hrow.
    assert (row ∈ radar) as Hin.
    { unfold top_tgvs, Pandas.take_rows in Hrow.
      apply list_elem_of_omap in Hrow as (k & _ & Hk).
      by apply list_elem_of_lookup_2 in Hk. }
    rewrite Forall_forall in Hnum. destruct (Hnum row Hin) as [[b Hb] [c Hc]].
    unfold at_least, benchmark_value, candidate_value. rewrite Hb, Hc. simpl.
    by rewrite bool_decide_eq_true.
  - rewrite top_tgvs_numeric by done.
    by rewrite length_take, sort_stable_perm.
  - rewrite top_tgvs_numeric by done.
    set (S := Pandas.sort_stable (λ r, - candidate_value r) radar).
    exists (drop 3 S). split.
    + rewrite take_drop. apply sort_stable_perm.
    + intros t r Ht Hr. apply Qcopp_le_iff.
      pose proof (sort_stable_sorted (λ r, - candidate_value r) radar) as Hsorted.
      fold S in Hsorted. rewrite <-(take_drop 3 S) in Hsorted.
      apply (StronglySorted_app_1_elem_of _ _ _ _ _ Hsorted Ht Hr).
Qed.

Lemma insights_strongest_gap_reasons_witness :
  ∃ strongest gap why,
    computeInsights_with Qcminus radar_mixed = Some (Summary strongest gap why)
    ∧ radar_tgv_name strongest = "Competency"
    ∧ radar_tgv_name gap = "Psychometric (Cognitive)".
Proof.
  assert (radar_mixed ≠ []) as Hne by done.
  assert (Forall numeric radar_mixed) as Hnum.
  { repeat constructor; by eexists. }
  destruct (insights_strongest_gap_reasons Qcminus radar_mixed Hne Hnum)
    as (i & j & s & g & Hins & Hi & Hmax & Hj & Hmin & Hreasons & _).
  exists s, g. eexists. split; [exact Hins|].
  assert (∃ why,
            computeInsights_with Qcminus radar_mixed
            = Some (Summary (mkRadarRow "Competency" (Some (Qc_of_Z 60)) (Some (Qc_of_Z 90)))
                      (mkRadarRow "Psychometric (Cognitive)"
                         (Some (Qc_of_Z 70)) (Some (Qc_of_Z 40)))
                      why)) as [why Heval] by (vm_compute; eexists; reflexivity).
  rewrite Hins in Heval. by simplify_eq.
Defined.

(** * C10: the insights are always determined *)


Lemma comparison_vector_numeric rows cid doms :
  Forall numeric (buildComparisonVector rows cid doms).
Proof.
  rewrite buildComparisonVector_fmap.
  apply Forall_fmap, Forall_forall. intros d _. split; by eexists.
Qed.



(** * C4: the empty scoring result *)

(** C4, as the code has it: an empty scoring result is stored as
    [pd.DataFrame()], a frame without columns; the column selection that
    starts the ranked list raises KeyError on it, so neither an empty ranked
    list nor an empty domain distribution is derived, and the handler of the
    display block reports the exception. *)
Theorem empty_result_raises directory choice :
  empty (DataFrame_of []) = true
  ∧ display (DataFrame_of []) directory choice = inl KeyError.
Proof. done. Qed.

(** * The Generate action *)

Ltac run_app :=
  cbv [on_generate register_vacancy record_audit try_except call emit modify raise
       mbind mret App_bind App_ret fst snd].

Ltac not_in_log H :=
  repeat (apply elem_of_cons in H as [H|H]; [discriminate|]);
  by apply elem_of_nil in H.

Lemma audit_payload_vacancy_id vid df :
  Forall (λ rec, vacancy_id rec = vid) (audit_payload_of vid df).
Proof.
  destruct df as [|rows|rows]; [constructor|..];
    apply Forall_fmap, Forall_forall; by intros row _.
Qed.

(** C8: the insert into [vacancy_audit] is attempted only after the insert
    into [job_vacancies] has answered with an identifier, and every audit
    record carries that identifier; when the vacancy insert fails, no audit
    insert is attempted, the vacancy id is absent, and the scoring rows
    already stored in the session are what the display block renders. *)
Theorem audit_follows_vacancy db form s0 result s1 log :
  on_generate db form (s0, []) = (result, (s1, log)) →
  (∀ payload, Insert_vacancy_audit payload ∈ log →
     ∃ vid rest l1 l2 l3,
       insert_job_vacancies db form = Some (vid :: rest)
       ∧ truthy (Some vid) = true
       ∧ result = inr (Some vid)
       ∧ log = l1 ++ Insert_job_vacancies form :: l2 ++ Insert_vacancy_audit payload :: l3
       ∧ Forall (λ rec, vacancy_id rec = vid) payload)
  ∧ (∀ data,
       in_benchmarks form ≠ [] →
       get_talent_matches db (in_benchmarks form) = Some data →
       insert_job_vacancies db form = None ∨ insert_job_vacancies db form = Some [] →
       result = inr None
       ∧ (∀ payload, Insert_vacancy_audit payload ∉ log)
       ∧ sql_results s1 = Some (DataFrame_of data)
       ∧ ∀ directory choice,
           display_block s1 directory choice
           = Some (display (DataFrame_of data) directory choice)).
Proof.
  intros Hrun. revert Hrun. run_app.
  case_bool_decide as Hsel.
  { intros [= <- <- <-]. split; [|done]. intros payload Hin. not_in_log Hin. }
  destruct (get_talent_matches db (in_benchmarks form)) as [data|] eqn:Hrpc.
  2:{ intros [= <- <- <-]. split; [|done]. intros payload Hin. not_in_log Hin. }
  destruct (insert_job_vacancies db form) as [[|vid rest]|] eqn:Hvac.
  - destruct data; intros [= <- <- <-]; (split; [intros payload Hin; not_in_log Hin|]);
      intros data' _ [= <-] _; (split_and!; [done| |done|done]);
      intros payload Hin; not_in_log Hin.
  - destruct (truthy (Some vid) && negb (empty (DataFrame_of data))) eqn:Hguard.
    + apply andb_true_iff in Hguard as [Htruthy Hnonempty].
      destruct data as [|row data]; [done|].
      destruct (insert_vacancy_audit db (audit_payload_of vid (DataFrame_of (row :: data))));
        intros [= <- <- <-];
        (split; [|by intros data' _ _ [[=]|[=]]]);
        intros payload Hin;
        repeat (apply elem_of_cons in Hin as [Hin|Hin]; [try discriminate|]);
        try (by apply elem_of_nil in Hin);
        injection Hin as ->;
        exists vid, rest; eexists [_; _], [_], _;
        (split_and!; [done|done|done|reflexivity|]);
        exact (audit_payload_vacancy_id vid (Frame (row :: data))).
    + destruct data; intros [= <- <- <-];
        (split; [|by intros data' _ _ [[=]|[=]]]);
        intros payload Hin; not_in_log Hin.
  - destruct data; intros [= <- <- <-]; (split; [intros payload Hin; not_in_log Hin|]);
      intros data' _ [= <-] _; (split_and!; [done| |done|done]);
      intros payload Hin; not_in_log Hin.
Qed.

Lemma audit_follows_vacancy_witness :
  display_block (on_generate (db_vacancy_failing rows_basic) form_sample
                   (initial_session, [])).2.1 directory_basic 0
  = Some (display (DataFrame_of rows_basic) directory_basic 0).
Proof.
  destruct (on_generate (db_vacancy_failing rows_basic) form_sample (initial_session, []))
    as [result [s1 log]] eqn:Hrun.
  destruct (audit_follows_vacancy _ _ _ _ _ _ Hrun) as [_ Hfail].
  destruct (Hfail rows_basic) as (_ & _ & _ & Hdisplay).
  - done.
  - reflexivity.
  - by left.
  - apply Hdisplay.
Defined.

(** * C9: what the audit trail stores *)

(** C9, as the code has it: the audit payload is built from every row of
    the scoring result, one record per (employee, domain) row, benchmark
    employees included; it is not the ranked candidate list, which has one
    row per candidate.  The placeholders are as the claim says. *)
Theorem audit_records_every_scored_row :
  let run := on_generate (db_answering rows_two_domains) form_sample (initial_session, []) in
  ∃ payload,
    Insert_vacancy_audit payload ∈ run.2.2
    ∧ candidate_id <$> payload = ["E1"; "E1"; "B1"]
    ∧ Forall (λ rec, gap_report rec = [] ∧ recommendations rec = None) payload
    ∧ ranked_id <$> buildRankedCandidates rows_two_domains directory_basic = ["E1"].
Proof.
  eexists. split_and!.
  - vm_compute. do 4 right. left.
  - reflexivity.
  - by repeat constructor.
  - vm_compute. reflexivity.
Qed.

(** * Parsing the widget labels back into ids *)

Lemma split_on_nonempty c s : split_on c s ≠ [].
Proof. destruct s as [|a s]; simpl; [done|]. case_match; [done|]. by case_match. Qed.

Lemma split_on_no_char c s : has_char c s = false → split_on c s = [s].
Proof.
  induction s as [|a s IH]; simpl; [done|].
  intros [Ha Hs]%orb_false_iff. rewrite Ha, IH by done. done.
Qed.

Lemma split_on_app c s1 s2 :
  ∃ init, init ≠ [] ∧ split_on c (s1 +:+ String c s2) = init ++ split_on c s2.
Proof.
  induction s1 as [|a s1 (init & Hne & IH)]; simpl.
  - rewrite Ascii.eqb_refl. by exists [EmptyString].
  - rewrite IH. destruct (Ascii.eqb a c).
    + by exists (EmptyString :: init).
    + destruct init as [|p init]; [done|]. by exists (String a p :: init).
Qed.

Lemma last_split_on_app c s1 s2 :
  last (split_on c (s1 +:+ String c s2)) = last (split_on c s2).
Proof.
  destruct (split_on_app c s1 s2) as (init & _ & ->).
  pose proof (split_on_nonempty c s2) as Hne.
  destruct (split_on c s2) as [|p ps] using rev_ind; [done|].
  by rewrite app_assoc, !last_snoc.
Qed.

Lemma remove_char_app c s1 s2 :
  remove_char c (s1 +:+ s2) = remove_char c s1 +:+ remove_char c s2.
Proof.
  induction s1 as [|a s1 IH]; simpl; [done|].
  destruct (Ascii.eqb a c); simpl; by rewrite IH.
Qed.

Lemma remove_char_no_char c s : has_char c s = false → remove_char c s = s.
Proof.
  induction s as [|a s IH]; simpl; [done|].
  intros [Ha Hs]%orb_false_iff. rewrite Ha, IH by done. done.
Qed.

Lemma has_char_app c s1 s2 : has_char c (s1 +:+ s2) = has_char c s1 || has_char c s2.
Proof.
  induction s1 as [|a s1 IH]; simpl; [done|]. by rewrite IH, orb_assoc.
Qed.

Lemma string_app_cons a (s1 s2 : string) : String a s1 +:+ s2 = String a (s1 +:+ s2).
Proof. reflexivity. Qed.

Lemma string_app_assoc (s1 s2 s3 : string) : (s1 +:+ s2) +:+ s3 = s1 +:+ (s2 +:+ s3).
Proof. induction s1 as [|a s1 IH]; [done|]. by rewrite !string_app_cons, IH. Qed.

Lemma string_app_empty_r (s : string) : s +:+ "" = s.
Proof. induction s as [|a s IH]; [done|]. by rewrite string_app_cons, IH. Qed.

(** X1: a benchmark picked in the sidebar is parsed back to its employee id,
    whatever the fullname, when the id holds no parenthesis *)
Theorem benchmark_id_round_trip (d : DirectoryEntry) (label : string) :
  display_of d = Some label →
  has_char "("%char (dir_employee_id d) = false →
  has_char ")"%char (dir_employee_id d) = false →
  benchmark_id_of label = dir_employee_id d.
Proof.
  unfold display_of, benchmark_id_of. intros Hlabel Hopen Hclose.
  destruct (dir_fullname d) as [f|]; simplify_eq/=.
  change (f +:+ " (" +:+ dir_employee_id d +:+ ")")
    with (f +:+ String " "%char (String "("%char (dir_employee_id d +:+ ")"))).
  replace (f +:+ String " "%char (String "("%char (dir_employee_id d +:+ ")")))
    with ((f +:+ " ") +:+ String "("%char (dir_employee_id d +:+ ")"))
    by (by rewrite string_app_assoc).
  rewrite last_split_on_app.
  rewrite split_on_no_char by (by rewrite has_char_app, Hopen).
  simpl. rewrite remove_char_app, remove_char_no_char by done.
  simpl. apply string_app_empty_r.
Qed.

Lemma benchmark_id_round_trip_witness :
  benchmark_id_of "Alice (Al) (E1)" = "E1".
Proof.
  apply (benchmark_id_round_trip (mkDirectoryEntry "E1" (Some "Alice (Al)"))); reflexivity.
Defined.

(** an id that holds a parenthesis is not recovered *)
Lemma benchmark_id_with_parenthesis :
  display_of (mkDirectoryEntry "E(1)" (Some "Alice")) = Some "Alice (E(1))"
  ∧ benchmark_id_of "Alice (E(1))" = "1".
Proof. split; reflexivity. Qed.

(** [split(" - ")[0]] gives back the employee id in front of a candidate
    label, when the id holds no space *)
Lemma split_head_label (e f : string) :
  has_char " "%char e = false → Pandas.split_head " - " (e +:+ " - " +:+ f) = e.
Proof.
  induction e as [|a e IH]; intros He.
  - destruct f; by vm_compute.
  - simpl in He. apply orb_false_iff in He as [Ha He].
    rewrite string_app_cons. cbn [Pandas.split_head].
    assert (String.prefix " - " (String a (e +:+ " - " +:+ f)) = false) as ->.
    { cbn [String.prefix]. destruct (ascii_dec " "%char a) as [<-|]; done. }
    by rewrite IH.
Qed.

(** * The display block beyond the claims *)

Lemma compare_candidate_label rows ranked choice label :
  selectbox (candidate_options ranked) choice = Some label →
  ∃ i,
    compare_candidate rows ranked choice
    = inr (mkComparison (Pandas.split_head " - " label)
             (buildComparisonVector rows (Pandas.split_head " - " label) default_tgvs) i)
    ∧ i ≠ CouldNotDetermine.
Proof.
  intros Hlabel. unfold compare_candidate. rewrite Hlabel.
  set (radar := buildComparisonVector rows (Pandas.split_head " - " label) default_tgvs).
  pose proof (comparison_vector_numeric rows (Pandas.split_head " - " label) default_tgvs)
    as Hnum. fold radar in Hnum.
  assert (radar ≠ []) as Hradar by (unfold radar; by rewrite buildComparisonVector_fmap).
  destruct (computeInsights_numeric radar Hnum Hradar) as (i & j & s & g & -> & _).
  by eexists.
Qed.

(** X2: the comparison is computed for the candidate picked in the select box,
    when its employee id holds no space *)
Theorem selected_candidate_is_ranked rows directory choice c :
  buildRankedCandidates rows directory !! choice = Some c →
  has_char " "%char (ranked_id c) = false →
  ∃ cmp,
    compare_candidate rows (buildRankedCandidates rows directory) choice = inr cmp
    ∧ selected_candidate_id cmp = ranked_id c
    ∧ radar_df cmp = buildComparisonVector rows (ranked_id c) default_tgvs.
Proof.
  intros Hc Hid.
  set (label := ranked_id c +:+ " - " +:+ default "" (fullname (candidate c))).
  destruct (compare_candidate_label rows (buildRankedCandidates rows directory) choice label)
    as (i & -> & _).
  { unfold selectbox, candidate_options. by rewrite list_lookup_fmap, Hc. }
  unfold label. rewrite split_head_label by done. by eexists.
Qed.

Lemma selected_candidate_is_ranked_witness :
  ∃ cmp,
    compare_candidate rows_basic (buildRankedCandidates rows_basic directory_basic) 1
    = inr cmp
    ∧ selected_candidate_id cmp = "E1".
Proof.
  destruct (buildRankedCandidates rows_basic directory_basic !! 1%nat) as [c|] eqn:Hc;
    [|by vm_compute in Hc].
  destruct (selected_candidate_is_ranked rows_basic directory_basic 1 c Hc)
    as (cmp & Hcmp & Hsel & _).
  - assert (ranked_id c = "E1") as ->; [|reflexivity].
    apply (f_equal (fmap ranked_id)) in Hc. vm_compute in Hc. by simplify_eq.
  - exists cmp. split; [done|]. rewrite Hsel.
    apply (f_equal (fmap ranked_id)) in Hc. vm_compute in Hc. by simplify_eq.
Defined.

(** X3: the columns of a ranked row are the employee-level columns of the
    employee's first scoring row, and its fullname is the non-empty fullname
    of a directory entry of that employee *)
Theorem ranked_row_columns rows directory c :
  c ∈ buildRankedCandidates rows directory →
  ∃ r d name,
    first_row rows (ranked_id c) = Some r
    ∧ base (candidate c) = employee_columns r
    ∧ d ∈ directory
    ∧ dir_employee_id d = ranked_id c
    ∧ dir_fullname d = Some name
    ∧ fullname (candidate c) = Some name
    ∧ name ≠ "".
Proof.
  intros Hc.
  assert (candidate c ∈ candidates rows directory) as Hin.
  { rewrite <-buildRankedCandidates_perm. by apply list_elem_of_fmap_2. }
  apply list_elem_of_filter in Hin as [_ Hin].
  apply (list_elem_of_fmap_2 (λ r, (base r, fullname r))) in Hin.
  rewrite df_ranked_columns in Hin.
  apply list_elem_of_filter in Hin as [Hne Hin].
  apply list_elem_of_filter in Hin as [Hsome Hin]. simpl in Hne, Hsome.
  unfold merge_fullname in Hin. apply list_elem_of_bind in Hin as (r0 & Hin & Hr0).
  apply elem_of_drop_duplicates in Hr0. rewrite first_row_columns in Hr0.
  destruct (filter (λ d, dir_employee_id d = e_employee_id r0) directory)
    as [|d0 ms] eqn:Hms.
  { apply list_elem_of_singleton in Hin. by simplify_eq. }
  rewrite <-Hms in Hin. apply list_elem_of_fmap in Hin as (d & Heq & Hd).
  apply list_elem_of_filter in Hd as [Hid Hd]. simplify_eq.
  unfold ranked_id. destruct (first_row rows (e_employee_id (base (candidate c))))
    as [r|]; simplify_eq/=.
  destruct (dir_fullname d) as [name|] eqn:Hname; [|done].
  exists r, d, name. split_and!; try done. by intros ->.
Qed.

Lemma ranked_row_columns_witness :
  ∃ c r, c ∈ buildRankedCandidates rows_basic directory_basic
         ∧ first_row rows_basic (ranked_id c) = Some r
         ∧ base (candidate c) = employee_columns r.
Proof.
  destruct (buildRankedCandidates rows_basic directory_basic) as [|c l] eqn:Hout;
    [by vm_compute in Hout|].
  assert (c ∈ buildRankedCandidates rows_basic directory_basic) as Hc
    by (rewrite Hout; by left).
  destruct (ranked_row_columns rows_basic directory_basic c Hc)
    as (r & d & name & Hr & Hbase & _).
  rewrite <-Hout. by exists c, r.
Defined.

(** * The domain chart *)

Lemma elem_of_df_unique_tgv rows t :
  t ∈ df_unique_tgv rows ↔ t ∈ tgv_columns <$> rows.
Proof.
  unfold df_unique_tgv.
  pose proof (drop_duplicates_keys (@id (string * string * Qc)%type) (tgv_columns <$> rows))
    as Hperm.
  rewrite !list_fmap_id in Hperm. by rewrite Hperm, elem_of_remove_dups.
Qed.

Lemma domains_of_df_unique_tgv rows (d : string) :
  d ∈ (λ t : string * string * Qc, t.1.2) <$> df_unique_tgv rows ↔ d ∈ tgv_name <$> rows.
Proof.
  rewrite !list_elem_of_fmap. split.
  - intros (t & -> & Ht). apply elem_of_df_unique_tgv, list_elem_of_fmap in Ht
      as (r & -> & Hr). by exists r.
  - intros (r & -> & Hr). exists (tgv_columns r). split; [done|].
    apply elem_of_df_unique_tgv. by apply list_elem_of_fmap_2.
Qed.

Lemma domainDistribution_perm rows :
  domainDistribution rows
  ≡ₚ Pandas.groupby_mean (λ t : string * string * Qc, t.1.2) snd (df_unique_tgv rows).
Proof. apply sort_values_perm. Qed.

(** X5: the domain chart has exactly one bar per domain that occurs in the
    scoring rows *)
Theorem domain_distribution_one_bar_per_domain rows :
  let out := domainDistribution rows in
  NoDup out.*1
  ∧ (∀ d, d ∈ out.*1 ↔ d ∈ tgv_name <$> rows)
  ∧ length out = length (remove_dups (tgv_name <$> rows)).
Proof.
  intros out. unfold out.
  assert ((domainDistribution rows).*1
          ≡ₚ remove_dups ((λ t : string * string * Qc, t.1.2) <$> df_unique_tgv rows))
    as Hkeys.
  { rewrite domainDistribution_perm. unfold Pandas.groupby_mean.
    rewrite <-list_fmap_compose, list_fmap_id. apply group_keys_perm. }
  assert (remove_dups ((λ t : string * string * Qc, t.1.2) <$> df_unique_tgv rows)
          ≡ₚ remove_dups (tgv_name <$> rows)) as Hdomains.
  { apply NoDup_Permutation; [apply NoDup_remove_dups..|].
    intros d. by rewrite !elem_of_remove_dups, domains_of_df_unique_tgv. }
  split_and!.
  - rewrite Hkeys. apply NoDup_remove_dups.
  - intros d. by rewrite Hkeys, elem_of_remove_dups, domains_of_df_unique_tgv.
  - by rewrite <-(length_fmap fst), Hkeys, Hdomains.
Qed.

(** * Ascending sorts of short frames *)

Lemma foldl_insert_sorted_sorted {A : Type} (k : A → Qc) (l : list A) : ∀ acc,
  StronglySorted (λ y z, k y ≤ k z) acc →
  StronglySorted (λ y z, k y ≤ k z) (foldl (λ acc x, Pandas.insert_sorted k x acc) acc l).
Proof.
  induction l as [|x l IH]; intros acc Hacc; [done|].
  simpl. by apply IH, insert_sorted_sorted.
Qed.

Lemma argsort_valid (v : list Qc) : Forall (λ i, i < length v)%nat (Numpy.argsort v).
Proof.
  rewrite argsort_perm. apply Forall_forall. intros i Hi.
  by apply elem_of_seq in Hi as [_ ?].
Qed.

Lemma sort_values_small_ascending {A : Type} (col : A → Qc) (df : list A) :
  (length df ≤ 17)%nat →
  Pandas.sort_values col true df
  = reverse (foldl (λ acc x, Pandas.insert_sorted (λ r, - col r) x acc) [] df).
Proof.
  intros Hlen. unfold Pandas.sort_values, Pandas.sort_values_kind, Pandas.nargsort.
  rewrite length_fmap.
  rewrite take_rows_of_seq.
  2:{ rewrite <-(length_fmap col df). apply argsort_valid. }
  rewrite argsort_small by (by rewrite length_fmap).
  rewrite take_rows_reverse. f_equal.
  rewrite take_rows_fmap, length_fmap.
  set (ko := λ o : option A, - default 0 (col <$> o)).
  rewrite (foldl_insert_sorted_fmap (λ i, df !! i) _ ko).
  2:{ intros i. unfold ko, Numpy.key. by rewrite list_lookup_fmap. }
  rewrite lookup_seq_all.
  change ((λ i : nat, df !! i) <$> []) with (Some <$> @nil A).
  rewrite <-(foldl_insert_sorted_fmap Some (λ r, - col r) ko) by done.
  apply omap_id_Some.
Qed.

(** X6: with at most 17 domains the bars of the domain chart are in ascending
    order of their value *)
Theorem domain_distribution_ascending rows :
  (length (remove_dups (tgv_name <$> rows)) ≤ 17)%nat →
  StronglySorted (λ p q : string * Qc, p.2 ≤ q.2) (domainDistribution rows).
Proof.
  intros Hlen. unfold domainDistribution.
  rewrite sort_values_small_ascending.
  - apply (StronglySorted_reverse (λ p q : string * Qc, q.2 ≤ p.2)).
    eapply (StronglySorted_opp snd).
    apply (foldl_insert_sorted_sorted (λ r : string * Qc, - r.2)). constructor.
  - unfold Pandas.groupby_mean. rewrite length_fmap, group_keys_perm.
    etrans; [|exact Hlen]. apply Nat.eq_le_incl, Permutation_length.
    apply NoDup_Permutation; [apply NoDup_remove_dups..|].
    intros d. by rewrite !elem_of_remove_dups, domains_of_df_unique_tgv.
Qed.

Lemma domain_distribution_ascending_witness :
  StronglySorted (λ p q : string * Qc, p.2 ≤ q.2) (domainDistribution rows_two_domains).
Proof.
  apply domain_distribution_ascending. vm_compute. lia.
Defined.

(** * The reasons *)

Lemma top_reasons_nil radar :
  Forall numeric radar →
  top_reasons radar = []
  ↔ Forall (λ row, candidate_value row < benchmark_value row) (top_tgvs radar).
Proof.
  intros Hnum. unfold top_reasons. split.
  - intros Hnil. apply Forall_forall. intros row Hrow.
    assert (row ∈ radar) as Hin.
    { unfold top_tgvs, Pandas.take_rows in Hrow.
      apply list_elem_of_omap in Hrow as (k & _ & Hk).
      by apply list_elem_of_lookup_2 in Hk. }
    rewrite Forall_forall in Hnum. destruct (Hnum row Hin) as [[b Hb] [c Hc]].
    pose proof (filter_nil_not_elem_of _ _ row Hnil) as Hnot.
    unfold at_least, benchmark_value, candidate_value in *. rewrite Hb, Hc in *. simpl.
    apply Qcnot_le_lt. intros Hle. apply Hnot; [|done]. by apply bool_decide_eq_true.
  - intros Hall. apply filter_none. intros row Hrow Hat.
    rewrite Forall_forall in Hall. specialize (Hall row Hrow).
    unfold at_least, benchmark_value, candidate_value in *.
    destruct (Candidate row), (Benchmark_Avg row); simpl in *; try done.
    apply bool_decide_eq_true in Hat. by apply Qcle_not_lt in Hat.
Qed.

(** X7: the balanced message is shown exactly when each of the three top
    domains has a candidate value below the benchmark average; a candidate
    that equals the benchmark in every domain is given its three top domains
    as reasons *)
Theorem balanced_message_iff radar :
  radar ≠ [] → Forall numeric radar →
  ((∃ strongest gap, computeInsights radar = Some (Summary strongest gap Balanced))
   ↔ Forall (λ row, candidate_value row < benchmark_value row) (top_tgvs radar))
  ∧ (Forall (λ row, candidate_value row = benchmark_value row) radar →
     ∃ strongest gap,
       computeInsights radar = Some (Summary strongest gap (Strong (top_tgvs radar)))).
Proof.
  intros Hne Hnum.
  destruct (computeInsights_numeric radar Hnum Hne) as (i & j & s & g & Hins & _).
  rewrite Hins. split.
  - rewrite <-top_reasons_nil by done. split.
    + intros (s' & g' & Heq). by destruct (top_reasons radar).
    + intros ->. by exists s, g.
  - intros Heq. exists s, g.
    assert (top_reasons radar = top_tgvs radar) as ->.
    { unfold top_reasons. apply filter_all. intros row Hrow.
      assert (row ∈ radar) as Hin.
      { unfold top_tgvs, Pandas.take_rows in Hrow.
        apply list_elem_of_omap in Hrow as (k & _ & Hk).
        by apply list_elem_of_lookup_2 in Hk. }
      rewrite Forall_forall in Hnum, Heq. destruct (Hnum row Hin) as [[b Hb] [c Hc]].
      specialize (Heq row Hin).
      unfold at_least, benchmark_value, candidate_value in *. rewrite Hb, Hc in *.
      simpl in *. subst. apply bool_decide_eq_true, Qcle_refl. }
    destruct (top_tgvs radar) eqn:Htop; [|done].
    exfalso. apply (f_equal length) in Htop.
    rewrite top_tgvs_numeric, length_take, sort_stable_perm in Htop by done.
    destruct radar; simpl in *; [done|lia].
Qed.

Lemma balanced_message_iff_witness :
  ∃ strongest gap,
    computeInsights radar_balanced
    = Some (Summary strongest gap (Strong (top_tgvs radar_balanced))).
Proof.
  assert (radar_balanced ≠ []) as Hne by done.
  assert (Forall numeric radar_balanced) as Hnum.
  { apply Forall_fmap, Forall_forall. intros d _. split; by eexists. }
  destruct (balanced_message_iff radar_balanced Hne Hnum) as [_ H].
  apply H. apply Forall_fmap, Forall_forall. by intros d _.
Defined.

(** X8: when all domains have the same diff, the first domain is both the
    strongest area and the largest gap *)
Theorem equal_diffs_first_domain radar first :
  Forall numeric radar → head radar = Some first →
  (∀ row, row ∈ radar → diff_value row = diff_value first) →
  ∃ why, computeInsights radar = Some (Summary first first why).
Proof.
  intros Hnum Hhead Heq.
  assert (radar ≠ []) as Hne by (by destruct radar).
  destruct (computeInsights_numeric radar Hnum Hne)
    as (i & j & s & g & Hins & Hi & Hmax & Hj & Hmin).
  rewrite head_lookup in Hhead.
  assert (i = 0)%nat as ->.
  { destruct i as [|i]; [done|]. destruct (Hmax 0%nat first Hhead) as [_ Hlt].
    specialize (Hlt ltac:(lia)). rewrite (Heq s) in Hlt.
    - by apply Qclt_not_eq in Hlt.
    - by eapply list_elem_of_lookup_2. }
  assert (j = 0)%nat as ->.
  { destruct j as [|j]; [done|]. destruct (Hmin 0%nat first Hhead) as [_ Hlt].
    specialize (Hlt ltac:(lia)). rewrite (Heq g) in Hlt.
    - by apply Qclt_not_eq in Hlt.
    - by eapply list_elem_of_lookup_2. }
  simplify_eq. by eexists.
Qed.

Lemma equal_diffs_first_domain_witness :
  ∃ why,
    computeInsights radar_balanced
    = Some (Summary (mkRadarRow "Competency" (Some (Qc_of_Z 70)) (Some (Qc_of_Z 70)))
              (mkRadarRow "Competency" (Some (Qc_of_Z 70)) (Some (Qc_of_Z 70))) why).
Proof.
  apply equal_diffs_first_domain.
  - apply Forall_fmap, Forall_forall. intros d _. split; by eexists.
  - reflexivity.
  - intros row (d & -> & _)%list_elem_of_fmap. reflexivity.
Defined.

(** * The Generate action beyond the claims *)

(** X9: every failure of an external service is caught: the handler ends
    without exception *)
Theorem on_generate_never_raises db form st :
  ∃ vid, (on_generate db form st).1 = inr vid.
Proof.
  destruct st as [s log]. run_app.
  case_bool_decide; [by eexists|].
  destruct (get_talent_matches db (in_benchmarks form)) as [data|]; [|by eexists].
  destruct (insert_job_vacancies db form) as [[|vid rest]|].
  - destruct data; by eexists.
  - destruct (truthy (Some vid) && negb (empty (DataFrame_of data))).
    + destruct (insert_vacancy_audit db (audit_payload_of vid (DataFrame_of data)));
        destruct data; by eexists.
    + destruct data; by eexists.
  - destruct data; by eexists.
Qed.

(** X10: without a selected benchmark, or when the scoring call fails, the
    session state is left as it was and nothing is inserted; without a
    selected benchmark the scoring procedure is not even called *)
Theorem no_scoring_no_change db form s0 result s1 log :
  on_generate db form (s0, []) = (result, (s1, log)) →
  in_benchmarks form = [] ∨ get_talent_matches db (in_benchmarks form) = None →
  s1 = s0 ∧ result = inr None
  ∧ (∀ v, Insert_job_vacancies v ∉ log)
  ∧ (∀ p, Insert_vacancy_audit p ∉ log)
  ∧ (in_benchmarks form = [] → ∀ ids, Rpc_get_talent_matches ids ∉ log).
Proof.
  intros Hrun Hcase. revert Hrun. run_app.
  case_bool_decide as Hsel.
  { intros [= <- <- <-]. split_and!; [done|done|..]; intros; intros Hin; not_in_log Hin. }
  destruct Hcase as [?|Hrpc]; [done|]. rewrite Hrpc.
  intros [= <- <- <-]. split_and!; [done|done| | |done]; intros; intros Hin; not_in_log Hin.
Qed.

Lemma no_scoring_no_change_witness :
  (on_generate (mkSupabase (λ _, None) (λ _, Some [IdInt 7]) (λ _, Some ())) form_sample
     (initial_session, [])).2.1 = initial_session.
Proof.
  destruct (on_generate (mkSupabase (λ _, None) (λ _, Some [IdInt 7]) (λ _, Some ()))
              form_sample (initial_session, [])) as [result [s1 log]] eqn:Hrun.
  destruct (no_scoring_no_change _ _ _ _ _ _ Hrun) as [Hs _]; [by right|].
  exact Hs.
Defined.

(** X11: once the scoring procedure has answered, its rows and the form are
    stored in the session and the vacancy insert is attempted, also for an
    empty answer; the session's vacancy id is the new one when that insert
    answers with a row, and keeps its former value when it fails *)
Theorem session_after_scoring db form s0 result s1 log data :
  on_generate db form (s0, []) = (result, (s1, log)) →
  in_benchmarks form ≠ [] →
  get_talent_matches db (in_benchmarks form) = Some data →
  sql_results s1 = Some (DataFrame_of data)
  ∧ inputs s1 = Some form
  ∧ Insert_job_vacancies form ∈ log
  ∧ session_vacancy_id s1
    = match insert_job_vacancies db form with
      | Some (vid :: _) => Some vid
      | _ => session_vacancy_id s0
      end.
Proof.
  intros Hrun Hsel Hrpc. revert Hrun. run_app.
  rewrite bool_decide_false by done. rewrite Hrpc.
  destruct (insert_job_vacancies db form) as [[|vid rest]|].
  - destruct data; intros [= <- <- <-]; split_and!; try done; set_solver.
  - destruct (truthy (Some vid) && negb (empty (DataFrame_of data))).
    + destruct (insert_vacancy_audit db (audit_payload_of vid (DataFrame_of data)));
        destruct data; intros [= <- <- <-]; split_and!; try done; set_solver.
    + destruct data; intros [= <- <- <-]; split_and!; try done; set_solver.
  - destruct data; intros [= <- <- <-]; split_and!; try done; set_solver.
Qed.

Lemma session_after_scoring_witness :
  session_vacancy_id
    (on_generate (db_vacancy_failing []) form_sample
       (mkSessionState None None (Some (IdInt 3)), [])).2.1
  = Some (IdInt 3).
Proof.
  destruct (on_generate (db_vacancy_failing []) form_sample
              (mkSessionState None None (Some (IdInt 3)), []))
    as [result [s1 log]] eqn:Hrun.
  destruct (session_after_scoring _ _ _ _ _ _ [] Hrun) as (_ & _ & _ & Hid);
    [done|reflexivity|].
  exact Hid.
Defined.

(** X12: the audit insert is attempted exactly when the scoring answer has rows
    and the vacancy id is truthy (an id 0 or an empty id skips it); its
    payload has one record per scoring row, in order, with the row's
    employee id and final match rate *)
Theorem audit_attempted_iff db form s0 result s1 log data vid rest payload :
  on_generate db form (s0, []) = (result, (s1, log)) →
  in_benchmarks form ≠ [] →
  get_talent_matches db (in_benchmarks form) = Some data →
  insert_job_vacancies db form = Some (vid :: rest) →
  Insert_vacancy_audit payload ∈ log
  ↔ data ≠ [] ∧ truthy (Some vid) = true
    ∧ payload
      = (λ row, mkAuditRecord vid (employee_id row) (Some (final_match_rate row)) [] None)
          <$> data.
Proof.
  intros Hrun Hsel Hrpc Hvac. revert Hrun. run_app.
  rewrite bool_decide_false by done. rewrite Hrpc, Hvac.
  destruct (truthy (Some vid)) eqn:Htruthy; cbn [andb].
  - destruct data as [|row data]; cbn [DataFrame_of empty negb].
    + intros [= <- <- <-]. split; [intros Hin; not_in_log Hin|by intros [? _]].
    + rewrite bool_decide_false by done. cbn [negb].
      destruct (insert_vacancy_audit db (audit_payload_of vid (Frame (row :: data))));
        intros [= <- <- <-]; (split; [|intros (_ & _ & ->); set_solver]);
        intros Hin;
        repeat (apply elem_of_cons in Hin as [Hin|Hin]; [try discriminate|]);
        try (by apply elem_of_nil in Hin);
        injection Hin as ->; done.
  - destruct data; intros [= <- <- <-];
      (split; [intros Hin; not_in_log Hin|by intros (_ & ? & _)]).
Qed.

Lemma audit_attempted_iff_witness :
  Insert_vacancy_audit
    ((λ row, mkAuditRecord (IdInt 7) (employee_id row) (Some (final_match_rate row)) [] None)
       <$> rows_basic)
  ∈ (on_generate (db_answering rows_basic) form_sample (initial_session, [])).2.2.
Proof.
  destruct (on_generate (db_answering rows_basic) form_sample (initial_session, []))
    as [result [s1 log]] eqn:Hrun.
  apply (audit_attempted_iff _ _ _ _ _ _ rows_basic (IdInt 7) [] _ Hrun);
    [done|reflexivity|reflexivity|].
  split_and!; [done|reflexivity|reflexivity].
Defined.

(** X13: whether the audit insert succeeds or fails is not observed: the result
    and the session state depend on the scoring and vacancy answers only *)
Theorem audit_outcome_not_observed db db' form st :
  get_talent_matches db (in_benchmarks form) = get_talent_matches db' (in_benchmarks form) →
  insert_job_vacancies db form = insert_job_vacancies db' form →
  (on_generate db form st).1 = (on_generate db' form st).1
  ∧ (on_generate db form st).2.1 = (on_generate db' form st).2.1.
Proof.
  intros Hrpc Hvac. destruct st as [s log]. run_app.
  case_bool_decide; [done|].
  rewrite <-Hrpc, <-Hvac.
  destruct (get_talent_matches db (in_benchmarks form)) as [data|]; [|done].
  destruct (insert_job_vacancies db form) as [[|vid rest]|].
  - by destruct data.
  - destruct (truthy (Some vid) && negb (empty (DataFrame_of data))).
    + destruct (insert_vacancy_audit db (audit_payload_of vid (DataFrame_of data))),
        (insert_vacancy_audit db' (audit_payload_of vid (DataFrame_of data)));
        by destruct data.
    + by destruct data.
  - by destruct data.
Qed.

Lemma audit_outcome_not_observed_witness :
  (on_generate (db_answering rows_basic) form_sample (initial_session, [])).1
  = (on_generate (mkSupabase (λ _, Some rows_basic) (λ _, Some [IdInt 7]) (λ _, None))
       form_sample (initial_session, [])).1.
Proof.
  apply (audit_outcome_not_observed (db_answering rows_basic)
           (mkSupabase (λ _, Some rows_basic) (λ _, Some [IdInt 7]) (λ _, None))
           form_sample (initial_session, [])); reflexivity.
Defined.
